(** * libimage/push.go: image push orchestration

    A shallow embedding of [Runtime.Push] and [pushImage].  The functions
    of the Go file are state transformers over a small store (the
    [PushOptions] cells reachable through pointers), an abstract outside
    world (local image store, registry, clock) and a ghost trace that
    records the calls made to the copy engine and the event sink.  The
    two [logrus.Debugf] calls are left out. *)

From Stdlib Require Import String Ascii List Bool Arith.
Import ListNotations.
Open Scope string_scope.
Open Scope list_scope.

Set Implicit Arguments.

(** ** The few functions of Go's [strings] package that push.go calls *)

Module GoStrings.

(** [strings.HasPrefix(s, prefix)] *)
Fixpoint HasPrefix (s prefix : string) {struct prefix} : bool :=
  match prefix, s with
  | EmptyString, _ => true
  | String _ _, EmptyString => false
  | String p prefix', String c s' => Ascii.eqb p c && HasPrefix s' prefix'
  end.

(** [s[n:]] *)
Fixpoint sliceFrom (n : nat) (s : string) : string :=
  match n, s with
  | O, _ => s
  | S _, EmptyString => EmptyString
  | S n', String _ s' => sliceFrom n' s'
  end.

(** [strings.TrimPrefix(s, prefix)]: [s] without the leading [prefix],
    or [s] itself when it does not start with [prefix]. *)
Definition TrimPrefix (s prefix : string) : string :=
  if HasPrefix s prefix then sliceFrom (String.length prefix) s else s.

(** [strings.IndexByte(s, c) >= 0] *)
Fixpoint ContainsByte (s : string) (c : ascii) : bool :=
  match s with
  | EmptyString => false
  | String d s' => Ascii.eqb d c || ContainsByte s' c
  end.

(** [strings.ContainsAny(s, chars)]: some byte of [chars] occurs in [s]
    (push.go only passes the ASCII set [":"]). *)
Fixpoint ContainsAny (s chars : string) : bool :=
  match s with
  | EmptyString => false
  | String c s' => ContainsByte chars c || ContainsAny s' chars
  end.

End GoStrings.
Import GoStrings.

(** ** Results of the calls that return [(T, error)] *)

Inductive result (E A : Type) : Type :=
| Ok (a : A)
| Err (e : E).
Arguments Ok {E A} a.
Arguments Err {E A} e.

(** ** The types push.go borrows from the rest of libimage and from
    containers/image.  Their declarations are outside this file, so they
    are kept abstract. *)

Class Domain : Type := {
  (** the outside world: local containers storage, registries, clock *)
  World : Type;
  (** [*Image] *)
  Image : Type;
  (** [types.ImageReference] *)
  ImageReference : Type;
  (** [reference.Named] and [reference.NamedTagged] *)
  Named : Type;
  NamedTagged : Type;
  (** [*copier] *)
  Copier : Type;
  (** [context.Context] *)
  GoContext : Type;
  (** errors produced by the collaborators *)
  ExtError : Type;
  (** [time.Time] *)
  Timestamp : Type;
  (** [EventType] with its constant [EventTypeImagePush] *)
  EventType : Type;
  EventTypeImagePush : EventType;
  (** [chan *Event] *)
  Chan : Type;
  (** the fields of [CopyOptions] that push.go never touches *)
  CopyConfig : Type;
  (** their zero value, as in [&PushOptions{}] *)
  zeroCopyConfig : CopyConfig
}.

Section Model.

Context {D : Domain}.

(** [CopyOptions]: only [dockerArchiveAdditionalTags] is written by
    push.go. *)
Record CopyOptions : Type := {
  dockerArchiveAdditionalTags : list NamedTagged;
  copyConfig : CopyConfig
}.

(** [type PushOptions struct { CopyOptions; AllTags bool }] *)
Record PushOptions : Type := {
  copyOptions : CopyOptions;
  AllTags : bool
}.

(** [PushOptions{}] *)
Definition zeroPushOptions : PushOptions :=
  {| copyOptions := {| dockerArchiveAdditionalTags := []; copyConfig := zeroCopyConfig |};
     AllTags := false |}.

(** [options.dockerArchiveAdditionalTags = tags] *)
Definition setArchiveTags (tags : list NamedTagged) (o : PushOptions) : PushOptions :=
  {| copyOptions := {| dockerArchiveAdditionalTags := tags;
                       copyConfig := copyConfig (copyOptions o) |};
     AllTags := AllTags o |}.

(** [Event{ID, Name, Time, Type}] *)
Record Event : Type := {
  ID : string;
  Name : string;
  Time : Timestamp;
  Type_ : EventType
}.

(** [*Runtime]: the one field push.go reads. *)
Record Runtime : Type := {
  eventChannel : option Chan
}.

(** Go errors: the ones push.go builds with [fmt.Errorf], and the ones it
    passes on from a collaborator. *)
Inductive error : Type :=
| Errorf (msg : string)
| Foreign (e : ExtError).

(** [[]byte]: [None] is the nil slice. *)
Definition bytes : Type := option (list Byte.byte).

(** What [Push] and [pushImage] return: [([]byte, error)], [None] for a
    nil error. *)
Definition returned : Type := (bytes * option error)%type.

(** Ghost trace: what happened, oldest first. *)
Inductive action : Type :=
| PushImageCalled (destination : string)
| NewCopierCalled (o : CopyOptions)
| CopyCalled (c : Copier) (ctx : GoContext) (srcRef destRef : ImageReference)
| CloseCalled (c : Copier)
| WriteEventCalled (e : Event)
| PushImageReturned (destination : string) (err : option error).

(** Pointers to [PushOptions] are locations of a store. *)
Definition loc : Type := nat.

Record state : Type := {
  heap : loc -> PushOptions;
  next : loc;
  world : World;
  trace : list action
}.

(** ** Collaborators

    The methods and library functions push.go calls.  Those that touch
    the local store, the network or the event channel take the world and
    give back a new one; the parsers and getters are functions of their
    argument.  [newCopier] is handed the address of
    [options.CopyOptions]; it is taken to read the options, not to write
    them. *)

Class Collaborators : Type := {
  (** [r.LookupImage(source, nil)]: the image and its resolved name *)
  LookupImage : string -> World -> result ExtError (Image * string) * World;
  (** [image.NamedTaggedRepoTags()] *)
  NamedTaggedRepoTags : Image -> World -> result ExtError (list NamedTagged) * World;
  (** [tag.Tag()] *)
  Tag : NamedTagged -> string;
  (** [image.StorageReference()] *)
  StorageReference : Image -> World -> result ExtError ImageReference * World;
  (** [image.ID()] *)
  imageID : Image -> string;
  (** [alltransports.ParseImageName] *)
  ParseImageName : string -> result ExtError ImageReference;
  (** [ref.Transport().Name()] *)
  TransportName : ImageReference -> string;
  (** [reference.ParseNamed] *)
  ParseNamed : string -> result ExtError Named;
  (** [named.(reference.NamedTagged)] *)
  asNamedTagged : Named -> option NamedTagged;
  (** [time.Now()] *)
  Now : World -> Timestamp;
  (** [r.newCopier(&options.CopyOptions)] *)
  newCopier : CopyOptions -> World -> result ExtError Copier * World;
  (** [c.copy(ctx, srcRef, destRef)] *)
  copy : Copier -> GoContext -> ImageReference -> ImageReference -> World ->
         (bytes * option ExtError) * World;
  (** [c.close()] *)
  close : Copier -> World -> World;
  (** [r.writeEvent(event)] *)
  writeEvent : Event -> World -> World
}.

Context {C : Collaborators}.

(** [dockerTransport.Transport.Name()] *)
Definition dockerTransportName : string := "docker".

(** [dockerArchiveTransport.Transport.Name()] *)
Definition dockerArchiveTransportName : string := "docker-archive".

(** ** A state monad for the bodies

    Errors are not part of the monad: as in Go they are values, tested
    and returned by hand. *)

Definition M (A : Type) : Type := state -> A * state.

Definition mret {A} (a : A) : M A := fun s => (a, s).

Definition bind {A B} (m : M A) (k : A -> M B) : M B :=
  fun s => let (a, s') := m s in k a s'.

Notation "x <- m ;; k" := (bind m (fun x => k))
  (at level 61, m at next level, right associativity).
Notation "m ;; k" := (bind m (fun _ => k))
  (at level 61, right associativity).

(** A call into the outside world. *)
Definition ext {A} (f : World -> A * World) : M A :=
  fun s => let (a, w) := f (world s) in
           (a, {| heap := heap s; next := next s; world := w; trace := trace s |}).

(** A call that returns nothing. *)
Definition ext_ (f : World -> World) : M unit :=
  ext (fun w => (tt, f w)).

(** Reading the world without changing it. *)
Definition observe {A} (f : World -> A) : M A :=
  fun s => (f (world s), s).

Definition emit (a : action) : M unit :=
  fun s => (tt, {| heap := heap s; next := next s; world := world s;
                   trace := trace s ++ [a] |}).

(** reading the cell behind [p] *)
Definition load (p : loc) : M PushOptions :=
  fun s => (heap s p, s).

(** [p.field = v]: an update of the cell behind [p] *)
Definition modify (p : loc) (f : PushOptions -> PushOptions) : M unit :=
  fun s => (tt, {| heap := fun q => if Nat.eqb q p then f (heap s p) else heap s q;
                   next := next s; world := world s; trace := trace s |}).

(** [&PushOptions{}]: a cell no earlier pointer refers to. *)
Definition alloc (o : PushOptions) : M loc :=
  fun s => (next s,
            {| heap := fun q => if Nat.eqb q (next s) then o else heap s q;
               next := S (next s); world := world s; trace := trace s |}).

(** Deferred calls, most recently deferred first: Go runs them in that
    order when the function returns. *)
Definition deferred : Type := list (M unit).

Fixpoint runDeferred (ds : deferred) : M unit :=
  match ds with
  | [] => mret tt
  | d :: ds' => d ;; runDeferred ds'
  end.

(** ** pushImage *)

(** Lines 91-100: parse the destination, falling back to the docker
    transport; when both parses fail the first error is the one kept. *)
Definition resolveDestination (destination : string) : result ExtError ImageReference :=
  match ParseImageName destination with
  | Ok destRef => Ok destRef
  | Err err =>
      match ParseImageName ("docker://" ++ destination)%string with
      | Err dockerErr => Err err
      | Ok dockerRef => Ok dockerRef
      end
  end.

(** Lines 113-120: name the image inside a docker archive. *)
Definition preserveArchiveTag (destination : string) (options : loc)
    (destRef : ImageReference) : M unit :=
  if String.eqb (TransportName destRef) dockerArchiveTransportName then
    match ParseNamed destination with
    | Ok named =>
        match asNamedTagged named with
        | Some tagged => modify options (setArchiveTags [tagged])
        | None => mret tt
        end
    | Err _ => mret tt
    end
  else mret tt.

(** The event of line 108; [time.Now()] is evaluated when the [defer]
    statement runs, not when the deferred call does. *)
Definition pushEvent (image : Image) (destination : string) (now : Timestamp) : Event :=
  {| ID := imageID image; Name := destination; Time := now; Type_ := EventTypeImagePush |}.

(** Lines 84-129, up to the point where the function returns: the values
    returned and the calls deferred so far. *)
Definition pushImageBody (ctx : GoContext) (destination : string) (options : loc)
    (image : Image) (r : Runtime) : M (returned * deferred) :=
  sr <- ext (StorageReference image) ;;
  match sr with
  | Err err => mret ((None, Some (Foreign err)), [])
  | Ok srcRef =>
    match resolveDestination destination with
    | Err err => mret ((None, Some (Foreign err)), [])
    | Ok destRef =>
      o <- load options ;;
      if negb (String.eqb (TransportName destRef) dockerTransportName) && AllTags o then
        mret ((None, Some (Errorf "--all-tags can only be used with docker transport")), [])
      else
        ds <- match eventChannel r with
              | Some _ =>
                  now <- observe Now ;;
                  mret [emit (WriteEventCalled (pushEvent image destination now)) ;;
                        ext_ (writeEvent (pushEvent image destination now))]
              | None => mret []
              end ;;
        preserveArchiveTag destination options destRef ;;
        o' <- load options ;;
        emit (NewCopierCalled (copyOptions o')) ;;
        nc <- ext (newCopier (copyOptions o')) ;;
        match nc with
        | Err err => mret ((None, Some (Foreign err)), ds)
        | Ok c =>
            let ds := (emit (CloseCalled c) ;; ext_ (close c)) :: ds in
            emit (CopyCalled c ctx srcRef destRef) ;;
            res <- ext (copy c ctx srcRef destRef) ;;
            mret ((fst res, option_map Foreign (snd res)), ds)
        end
    end
  end.

(** [pushImage]: the body, then the deferred calls, then the return. *)
Definition pushImage (ctx : GoContext) (destination : string) (options : loc)
    (image : Image) (r : Runtime) : M returned :=
  emit (PushImageCalled destination) ;;
  out <- pushImageBody ctx destination options image r ;;
  runDeferred (snd out) ;;
  emit (PushImageReturned destination (snd (fst out))) ;;
  mret (fst out).

(** ** Push *)

(** Lines 68-74: one [pushImage] per tag, stopping at the first error. *)
Fixpoint pushTags (ctx : GoContext) (destination : string) (options : loc)
    (image : Image) (r : Runtime) (namedRepoTags : list NamedTagged) : M returned :=
  match namedRepoTags with
  | [] => mret (None, None)
  | tag :: rest =>
      let fullNamedTag := (destination ++ ":" ++ Tag tag)%string in
      out <- pushImage ctx fullNamedTag options image r ;;
      match snd out with
      | Some err => mret (None, Some err)
      | None => pushTags ctx destination options image r rest
      end
  end.

(** Lines 45-50. *)
Definition effectiveDestination (destination resolvedSource : string) : string :=
  if String.eqb destination "" then resolvedSource else destination.

(** [Runtime.Push]; [options] is [None] for a nil pointer. *)
Definition Push (r : Runtime) (ctx : GoContext) (source destination : string)
    (options : option loc) : M returned :=
  options <- match options with
             | None => alloc zeroPushOptions
             | Some p => mret p
             end ;;
  lk <- ext (LookupImage source) ;;
  match lk with
  | Err err => mret (None, Some (Foreign err))
  | Ok (image, resolvedSource) =>
      let destination := effectiveDestination destination resolvedSource in
      o <- load options ;;
      if AllTags o then
        let d := TrimPrefix destination "docker://" in
        if ContainsAny d ":" then
          mret (None, Some (Errorf "tag can't be used with --all-tags/-a"))
        else
          nt <- ext (NamedTaggedRepoTags image) ;;
          match nt with
          | Err err => mret (None, Some (Foreign err))
          | Ok namedRepoTags => pushTags ctx destination options image r namedRepoTags
          end
      else
        pushImage ctx destination options image r
  end.

(** ** Reading the ghost trace *)

(** The destinations [pushImage] was called with, in order. *)
Definition calls (tr : list action) : list string :=
  flat_map (fun a => match a with PushImageCalled d => [d] | _ => [] end) tr.

(** The destinations [pushImage] returned for, each with the error it
    returned. *)
Definition returns (tr : list action) : list (string * option error) :=
  flat_map (fun a => match a with PushImageReturned d e => [(d, e)] | _ => [] end) tr.

(** The events handed to [writeEvent]. *)
Definition events (tr : list action) : list Event :=
  flat_map (fun a => match a with WriteEventCalled e => [e] | _ => [] end) tr.

(** The copy options each [newCopier] call received. *)
Definition copierOptions (tr : list action) : list CopyOptions :=
  flat_map (fun a => match a with NewCopierCalled o => [o] | _ => [] end) tr.

(** The source and destination of each [copy] call. *)
Definition copies (tr : list action) : list (ImageReference * ImageReference) :=
  flat_map (fun a => match a with CopyCalled _ _ src dst => [(src, dst)] | _ => [] end) tr.

(** The copiers [copy] ran on, and the copiers that were closed. *)
Definition copiersUsed (tr : list action) : list Copier :=
  flat_map (fun a => match a with CopyCalled c _ _ _ => [c] | _ => [] end) tr.

Definition copiersClosed (tr : list action) : list Copier :=
  flat_map (fun a => match a with CloseCalled c => [c] | _ => [] end) tr.

(** When is the archive tag of lines 113-120 not written: the
    destination is no docker archive, or it has no tag to offer. *)
Definition keepsArchiveTags (destination : string) (destRef : ImageReference) : Prop :=
  TransportName destRef <> dockerArchiveTransportName \/
  (exists err, ParseNamed destination = Err err) \/
  (exists named, ParseNamed destination = Ok named /\ asNamedTagged named = None).

(** The state in which a call with nil options runs: a cell of its own. *)
Definition withFreshOptions (s : state) : state :=
  {| heap := fun q => if Nat.eqb q (next s) then zeroPushOptions else heap s q;
     next := S (next s); world := world s; trace := trace s |}.

(** Same state, later world. *)
Definition atWorld (s : state) (w : World) : state :=
  {| heap := heap s; next := next s; world := w; trace := trace s |}.

(** The two messages push.go builds itself. *)
Definition errConflictingTag : error :=
  Errorf "tag can't be used with --all-tags/-a".

Definition errAllTagsTransport : error :=
  Errorf "--all-tags can only be used with docker transport".

End Model.

(** ** A small concrete world, used to run the model *)

Module Demo.

(** The part of [s] before its first [':'] and the part after it. *)
Fixpoint splitColon (s : string) : option (string * string) :=
  match s with
  | EmptyString => None
  | String c s' =>
      if Ascii.eqb c ":"%char then Some (EmptyString, s')
      else match splitColon s' with
           | Some (a, b) => Some (String c a, b)
           | None => None
           end
  end.

Definition domain : Domain :=
  {| World := nat;
     Image := string * list string;
     ImageReference := string * string;
     Named := string * option string;
     NamedTagged := string * string;
     Copier := unit;
     GoContext := unit;
     ExtError := string;
     Timestamp := nat;
     EventType := nat;
     EventTypeImagePush := 2;
     Chan := unit;
     CopyConfig := unit;
     zeroCopyConfig := tt |}.

(** Two images in the local store: one with two tags, one with none. *)
Definition busybox : string * list string := ("3fbc63216742", ["v1"; "v2"]).
Definition scratch : string * list string := ("9c7a54a9a43c", []).

Definition lookup (source : string) (w : nat)
  : result string ((string * list string) * string) * nat :=
  if String.eqb source "busybox" then (Ok (busybox, "localhost/busybox"), w)
  else if String.eqb source "scratch" then (Ok (scratch, "localhost/scratch"), w)
  else (Err "image not known", w).

Definition parseImageName (s : string) : result string (string * string) :=
  match splitColon s with
  | None => Err "expected colon-separated transport:reference"
  | Some (t, rest) =>
      if String.eqb t "docker" then
        if negb (HasPrefix rest "//") then
          Err "docker: image reference does not start with //"
        else if ContainsAny rest " " then Err "invalid reference format"
        else Ok (t, rest)
      else if String.eqb t "docker-archive" || String.eqb t "dir"
              || String.eqb t "oci-archive" then Ok (t, rest)
      else Err "unknown transport"
  end.

Definition parseNamed (s : string) : result string (string * option string) :=
  match splitColon s with
  | None => Ok (s, None)
  | Some (n, t) =>
      if HasPrefix t "/" then Err "invalid reference format" else Ok (n, Some t)
  end.

(** The registry accepts everything except repositories under
    [//down/]. *)
Definition copyTo (dst : string * string) (w : nat)
  : (option (list Byte.byte) * option string) * nat :=
  if HasPrefix (snd dst) "//down/" then ((None, Some "connection refused"), S w)
  else ((Some [Byte.x7b; Byte.x7d], None), S w).

Definition collaborators : @Collaborators domain :=
  {| LookupImage := lookup : string -> @World domain -> _;
     NamedTaggedRepoTags := fun (img : @Image domain) w =>
       (Ok (map (fun t => ("localhost/busybox", t)) (snd img)), w);
     Tag := fun t : @NamedTagged domain => snd t;
     StorageReference := fun (img : @Image domain) w =>
       (Ok ("containers-storage", fst img), w);
     imageID := fun img : @Image domain => fst img;
     ParseImageName := parseImageName;
     TransportName := fun ref : @ImageReference domain => fst ref;
     ParseNamed := parseNamed;
     asNamedTagged := fun n : @Named domain =>
       match snd n with Some t => Some (fst n, t) | None => None end;
     Now := fun w : @World domain => w;
     newCopier := fun _ w => (Ok tt, w);
     copy := fun _ _ _ dst w => copyTo dst w;
     close := fun _ w => w;
     writeEvent := fun _ w => w |}.

(** The same world with a copy engine that cannot be set up. *)
Definition withoutCopier : @Collaborators domain :=
  {| LookupImage := @LookupImage domain collaborators;
     NamedTaggedRepoTags := @NamedTaggedRepoTags domain collaborators;
     Tag := @Tag domain collaborators;
     StorageReference := @StorageReference domain collaborators;
     imageID := @imageID domain collaborators;
     ParseImageName := @ParseImageName domain collaborators;
     TransportName := @TransportName domain collaborators;
     ParseNamed := @ParseNamed domain collaborators;
     asNamedTagged := @asNamedTagged domain collaborators;
     Now := @Now domain collaborators;
     newCopier := fun _ w => (Err "no signature policy", w);
     copy := @copy domain collaborators;
     close := @close domain collaborators;
     writeEvent := @writeEvent domain collaborators |}.

Definition runtime : @Runtime domain := {| eventChannel := Some (tt : @Chan domain) |}.
Definition quiet : @Runtime domain := {| eventChannel := None |}.

(** Every cell holds the given options; nothing has happened yet. *)
Definition start (o : @PushOptions domain) : @state domain :=
  {| heap := fun _ => o; next := 1; world := 0; trace := [] |}.

Definition allTagsOptions : @PushOptions domain :=
  {| copyOptions := copyOptions zeroPushOptions; AllTags := true |}.

End Demo.


Unset Implicit Arguments.

(** * Properties *)

(** ** Strings *)

Section StringFacts.

Lemma ContainsAny_app (a b chars : string) :
  ContainsAny (a ++ b) chars = ContainsAny a chars || ContainsAny b chars.
Proof.
  induction a as [|c a IH]; simpl.
  - reflexivity.
  - rewrite IH. now rewrite orb_assoc.
Qed.

Lemma HasPrefix_app (p rest : string) : HasPrefix (p ++ rest) p = true.
Proof.
  induction p as [|c p IH]; simpl.
  - reflexivity.
  - now rewrite Ascii.eqb_refl, IH.
Qed.

Lemma sliceFrom_app (p rest : string) : sliceFrom (String.length p) (p ++ rest) = rest.
Proof. induction p as [|c p IH]; simpl; [now destruct rest | exact IH]. Qed.

(** A string that starts with [prefix] is [prefix] followed by what
    [TrimPrefix] keeps. *)
Lemma HasPrefix_split (s prefix : string) :
  HasPrefix s prefix = true -> s = (prefix ++ TrimPrefix s prefix)%string.
Proof.
  unfold TrimPrefix. intros H. rewrite H. revert s H.
  induction prefix as [|p prefix IH]; intros s H; simpl in *.
  - now destruct s.
  - destruct s as [|c s]; [discriminate|].
    apply andb_true_iff in H. destruct H as [Hc Hs].
    apply Ascii.eqb_eq in Hc. subst c. f_equal. now apply IH.
Qed.

Lemma TrimPrefix_app (p rest : string) : TrimPrefix (p ++ rest) p = rest.
Proof. unfold TrimPrefix. now rewrite HasPrefix_app, sliceFrom_app. Qed.

Lemma TrimPrefix_no_prefix (s prefix : string) :
  HasPrefix s prefix = false -> TrimPrefix s prefix = s.
Proof. unfold TrimPrefix. now intros ->. Qed.

(** Two strings cut at their first colon agree on the part before it
    when one is a prefix of the other. *)
Lemma HasPrefix_first_colon (a b p q : string) :
  ContainsAny a ":" = false ->
  ContainsAny p ":" = false ->
  HasPrefix (a ++ ":" ++ b) (p ++ ":" ++ q) = true ->
  a = p.
Proof.
  revert p. induction a as [|c a IH]; intros [|d p] Ha Hp H;
    cbn [append HasPrefix ContainsAny ContainsByte] in *.
  - reflexivity.
  - apply andb_true_iff in H. destruct H as [H _].
    apply Ascii.eqb_eq in H. subst d.
    rewrite Ascii.eqb_refl in Hp. discriminate.
  - apply andb_true_iff in H. destruct H as [H _].
    apply Ascii.eqb_eq in H. subst c.
    rewrite Ascii.eqb_refl in Ha. discriminate.
  - apply andb_true_iff in H. destruct H as [Hc H].
    apply Ascii.eqb_eq in Hc. subst d.
    apply orb_false_iff in Ha. destruct Ha as [_ Ha].
    apply orb_false_iff in Hp. destruct Hp as [_ Hp].
    f_equal. now apply IH.
Qed.

(** A destination that names a transport other than [docker] keeps its
    colon through the prefix strip of line 56. *)
Lemma scheme_survives_strip (scheme rest : string) :
  ContainsAny scheme ":" = false ->
  scheme <> "docker" ->
  ContainsAny (TrimPrefix (scheme ++ ":" ++ rest) "docker://") ":" = true.
Proof.
  intros Hs Hne.
  destruct (HasPrefix (scheme ++ ":" ++ rest) "docker://") eqn:Hp.
  - exfalso. apply Hne.
    apply (HasPrefix_first_colon scheme rest "docker" "//"); auto.
  - rewrite TrimPrefix_no_prefix by exact Hp.
    rewrite ContainsAny_app. simpl. apply orb_true_r.
Qed.

Lemma append_assoc (a b c : string) : ((a ++ b) ++ c = a ++ (b ++ c))%string.
Proof. induction a as [|x a IH]; simpl; [reflexivity | now rewrite IH]. Qed.

Lemma effectiveDestination_given (destination resolvedSource : string) :
  destination <> "" ->
  effectiveDestination destination resolvedSource = destination.
Proof.
  unfold effectiveDestination. intros H.
  destruct (String.eqb_spec destination ""); congruence.
Qed.

End StringFacts.

Section Facts.

Context {D : Domain} {C : Collaborators}.

Implicit Types (s : state) (l : loc) (r : Runtime) (ctx : GoContext)
  (image : Image) (destination source : string).

(** ** The trace readers distribute over appended traces *)

Lemma calls_app (t1 t2 : list action) : calls (t1 ++ t2)%list = (calls t1 ++ calls t2)%list.
Proof. apply flat_map_app. Qed.

Lemma returns_app (t1 t2 : list action) :
  returns (t1 ++ t2)%list = (returns t1 ++ returns t2)%list.
Proof. apply flat_map_app. Qed.

Lemma events_app (t1 t2 : list action) :
  events (t1 ++ t2)%list = (events t1 ++ events t2)%list.
Proof. apply flat_map_app. Qed.

Lemma copierOptions_app (t1 t2 : list action) :
  copierOptions (t1 ++ t2)%list = (copierOptions t1 ++ copierOptions t2)%list.
Proof. apply flat_map_app. Qed.

Lemma copies_app (t1 t2 : list action) :
  copies (t1 ++ t2)%list = (copies t1 ++ copies t2)%list.
Proof. apply flat_map_app. Qed.

Ltac unfold_model :=
  unfold pushImage, pushImageBody, preserveArchiveTag, bind, ext_, ext, emit,
    load, modify, observe, mret, atWorld in *.

Ltac simpl_state :=
  cbn [fst snd heap next world trace runDeferred option_map negb andb
       bind mret ext ext_ emit load modify observe atWorld] in *.

Ltac run := unfold_model; simpl_state.

(** Case analysis on the innermost scrutinee the goal is stuck on. *)
Ltac break_match :=
  match goal with
  | |- context [match ?x with _ => _ end] =>
      lazymatch x with
      | context [match _ with _ => _ end] => fail
      | _ => destruct x eqn:?
      end
  end.

Ltac all_paths := run; repeat (break_match; simpl_state).

Ltac read_trace :=
  rewrite ?calls_app, ?returns_app, ?events_app, ?copierOptions_app, ?copies_app;
  cbn [calls returns events copierOptions copies flat_map app];
  rewrite <- ?app_assoc, ?app_nil_r; cbn [app].

(** ** One [pushImage] call, whatever path it takes *)

Lemma pushImage_calls ctx destination l image r s :
  calls (trace (snd (pushImage ctx destination l image r s)))
  = (calls (trace s) ++ [destination])%list.
Proof. all_paths; read_trace; reflexivity. Qed.

Lemma pushImage_returns ctx destination l image r s :
  returns (trace (snd (pushImage ctx destination l image r s)))
  = (returns (trace s) ++
     [(destination, snd (fst (pushImage ctx destination l image r s)))])%list.
Proof. all_paths; read_trace; reflexivity. Qed.

(** The store after a call: no allocation, no other cell touched, and in
    the options cell at most the archive tags replaced by one tag. *)
Lemma pushImage_store ctx destination l image r s :
  let s' := snd (pushImage ctx destination l image r s) in
  next s' = next s /\
  (forall q, q <> l -> heap s' q = heap s q) /\
  (heap s' l = heap s l \/
   exists tagged, heap s' l = setArchiveTags [tagged] (heap s l)).
Proof.
  all_paths; (split; [reflexivity|]); (split; [|]);
    try (intros q Hq; apply Nat.eqb_neq in Hq; now rewrite ?Hq);
    rewrite ?Nat.eqb_refl; eauto.
Qed.

(** A call whose storage reference is unavailable stops there. *)
Lemma pushImage_no_storage_reference ctx destination l image r s err w :
  StorageReference image (world s) = (Err err, w) ->
  pushImage ctx destination l image r s
  = ((None, Some (Foreign err)),
     {| heap := heap s; next := next s; world := w;
        trace := trace s ++ [PushImageCalled destination;
                             PushImageReturned destination (Some (Foreign err))] |}).
Proof. intros H. run. rewrite H. simpl_state. now rewrite <- app_assoc. Qed.


(** The guard of lines 103-105. *)
Lemma pushImage_guard_rejects ctx destination l image r s srcRef w destRef :
  StorageReference image (world s) = (Ok srcRef, w) ->
  resolveDestination destination = Ok destRef ->
  TransportName destRef <> dockerTransportName ->
  AllTags (heap s l) = true ->
  pushImage ctx destination l image r s
  = ((None, Some errAllTagsTransport),
     {| heap := heap s; next := next s; world := w;
        trace := trace s ++ [PushImageCalled destination;
                             PushImageReturned destination (Some errAllTagsTransport)] |}).
Proof.
  intros H1 H2 H3 H4. run. rewrite H1. simpl_state. rewrite H2. simpl_state.
  apply String.eqb_neq in H3. rewrite H3, H4. simpl_state. now rewrite <- app_assoc.
Qed.

(** Past the guard, the only errors left are the collaborators'. *)
Lemma pushImage_guard_passes ctx destination l image r s srcRef w destRef :
  StorageReference image (world s) = (Ok srcRef, w) ->
  resolveDestination destination = Ok destRef ->
  TransportName destRef = dockerTransportName \/ AllTags (heap s l) = false ->
  forall msg, snd (fst (pushImage ctx destination l image r s)) <> Some (Errorf msg).
Proof.
  intros H1 H2 H3 msg. run. rewrite H1. simpl_state. rewrite H2. simpl_state.
  assert (Hg : negb (TransportName destRef =? dockerTransportName)%string
               && AllTags (heap s l) = false).
  { destruct H3 as [H3|H3]; rewrite H3; [reflexivity | apply andb_false_r]. }
  rewrite Hg. repeat (break_match; simpl_state); try discriminate.
  all: destruct (snd p); discriminate.
Qed.

Lemma guard_false (destRef : ImageReference) (o : PushOptions) :
  TransportName destRef = dockerTransportName \/ AllTags o = false ->
  negb (TransportName destRef =? dockerTransportName)%string && AllTags o = false.
Proof. intros [H|H]; rewrite H; [reflexivity | apply andb_false_r]. Qed.

(** Past the guard with a tagged docker-archive destination: the tag is
    written into the options cell, stays there, and is what [newCopier]
    receives. *)
Lemma pushImage_writes_archive_tag ctx destination l image r s srcRef w destRef named tagged :
  StorageReference image (world s) = (Ok srcRef, w) ->
  resolveDestination destination = Ok destRef ->
  AllTags (heap s l) = false ->
  TransportName destRef = dockerArchiveTransportName ->
  ParseNamed destination = Ok named ->
  asNamedTagged named = Some tagged ->
  let s' := snd (pushImage ctx destination l image r s) in
  copierOptions (trace s')
  = (copierOptions (trace s) ++ [copyOptions (setArchiveTags [tagged] (heap s l))])%list /\
  heap s' l = setArchiveTags [tagged] (heap s l).
Proof.
  intros H1 H2 H3 H4 H5 H6. run. rewrite H1. simpl_state. rewrite H2. simpl_state.
  rewrite H3, andb_false_r, H4, String.eqb_refl, H5, H6. simpl_state.
  rewrite ?Nat.eqb_refl.
  repeat (break_match; simpl_state; rewrite ?Nat.eqb_refl); read_trace; auto.
Qed.

(** Past the guard with any other destination: the options cell is left
    as it was, and [newCopier] receives what it held on entry. *)
Lemma pushImage_keeps_archive_tags ctx destination l image r s srcRef w destRef :
  StorageReference image (world s) = (Ok srcRef, w) ->
  resolveDestination destination = Ok destRef ->
  TransportName destRef = dockerTransportName \/ AllTags (heap s l) = false ->
  keepsArchiveTags destination destRef ->
  let s' := snd (pushImage ctx destination l image r s) in
  copierOptions (trace s')
  = (copierOptions (trace s) ++ [copyOptions (heap s l)])%list /\
  heap s' l = heap s l.
Proof.
  intros H1 H2 H3 H4. run. rewrite H1. simpl_state. rewrite H2. simpl_state.
  rewrite (guard_false _ _ H3).
  destruct H4 as [H4|[[err H4]|[named [H4 H5]]]].
  - apply String.eqb_neq in H4. rewrite H4.
    repeat (break_match; simpl_state); read_trace; auto.
  - rewrite H4.
    repeat (break_match; simpl_state); read_trace; auto.
  - rewrite H4, H5.
    repeat (break_match; simpl_state); read_trace; auto.
Qed.

Lemma pushImage_rejection_origin ctx destination l image r s msg :
  snd (fst (pushImage ctx destination l image r s)) = Some (Errorf msg) ->
  AllTags (heap s l) = true /\
  exists destRef, resolveDestination destination = Ok destRef /\
                  TransportName destRef <> dockerTransportName.
Proof.
  all_paths; intros H; try discriminate;
    try (destruct (snd p); discriminate).
  match goal with Hg : _ && _ = true |- _ =>
    apply andb_true_iff in Hg; destruct Hg as [Hn Ha] end.
  split; [exact Ha|]. eexists. split; [reflexivity|].
  apply String.eqb_neq. now apply negb_true_iff.
Qed.

(** ** The loop over the tags *)

Lemma pushTags_cons ctx destination l image r tag rest s :
  pushTags ctx destination l image r (tag :: rest) s
  = let out := pushImage ctx (destination ++ ":" ++ Tag tag) l image r s in
    match snd (fst out) with
    | Some err => ((None, Some err), snd out)
    | None => pushTags ctx destination l image r rest (snd out)
    end.
Proof.
  cbn [pushTags]. unfold bind at 1.
  destruct (pushImage ctx (destination ++ ":" ++ Tag tag) l image r s) as [[b e] s1].
  cbn [fst snd]. now destruct e.
Qed.

(** Either every tag was pushed and the loop returns [(nil, nil)], or
    the tags before some tag were pushed, that tag's push failed, and the
    loop returns its error without going further. *)
Lemma pushTags_outcome ctx destination l image r tags :
  forall s,
  let out := pushTags ctx destination l image r tags s in
  let full := fun tag => (destination ++ ":" ++ Tag tag)%string in
  (fst out = (None, None) /\
   calls (trace (snd out)) = (calls (trace s) ++ map full tags)%list /\
   returns (trace (snd out))
   = (returns (trace s) ++ map (fun tag => (full tag, None)) tags)%list)
  \/
  (exists pre tag post err,
     tags = (pre ++ tag :: post)%list /\
     fst out = (None, Some err) /\
     calls (trace (snd out)) = (calls (trace s) ++ map full (pre ++ [tag]))%list /\
     returns (trace (snd out))
     = (returns (trace s) ++ map (fun t => (full t, None)) pre
        ++ [(full tag, Some err)])%list).
Proof.
  induction tags as [|tag rest IH]; intros s; cbn zeta.
  - left. cbn [pushTags mret fst snd map]. now rewrite !app_nil_r.
  - rewrite pushTags_cons. cbn zeta.
    pose proof (pushImage_calls ctx (destination ++ ":" ++ Tag tag) l image r s) as Hc.
    pose proof (pushImage_returns ctx (destination ++ ":" ++ Tag tag) l image r s) as Hr.
    destruct (snd (fst (pushImage ctx (destination ++ ":" ++ Tag tag) l image r s)))
      as [err|] eqn:He.
    + right. exists [], tag, rest, err. cbn [fst snd app map].
      repeat split; assumption.
    + specialize (IH (snd (pushImage ctx (destination ++ ":" ++ Tag tag) l image r s))).
      cbn zeta in IH. destruct IH as [(H1 & H2 & H3)|(pre & t & post & err & H0 & H1 & H2 & H3)].
      * left. rewrite H1, H2, H3, Hc, Hr. cbn [map].
        rewrite <- !app_assoc. auto.
      * right. exists (tag :: pre), t, post, err.
        rewrite H1, H2, H3, Hc, Hr, H0. cbn [map app].
        rewrite <- !app_assoc. auto.
Qed.

(** An error returned by the loop is the error of one of its
    [pushImage] calls. *)
Lemma pushTags_error_origin ctx destination l image r tags :
  forall s err,
  snd (fst (pushTags ctx destination l image r tags s)) = Some err ->
  exists tag s0,
    In tag tags /\
    snd (fst (pushImage ctx (destination ++ ":" ++ Tag tag) l image r s0)) = Some err.
Proof.
  induction tags as [|tag rest IH]; intros s err.
  - cbn. discriminate.
  - rewrite pushTags_cons. cbn zeta.
    destruct (snd (fst (pushImage ctx (destination ++ ":" ++ Tag tag) l image r s)))
      as [e|] eqn:He; cbn [fst snd]; intros H.
    + inversion H; subst e. exists tag, s. cbn [In]. auto.
    + destruct (IH _ _ H) as (t & s0 & Hin & Hp).
      exists t, s0. cbn [In]. auto.
Qed.

Lemma pushTags_payload ctx destination l image r tags :
  forall s, fst (fst (pushTags ctx destination l image r tags s)) = None.
Proof.
  induction tags as [|tag rest IH]; intros s.
  - reflexivity.
  - rewrite pushTags_cons. cbn zeta.
    destruct (snd (fst (pushImage ctx (destination ++ ":" ++ Tag tag) l image r s)));
      [reflexivity | apply IH].
Qed.

(** ** Push, branch by branch *)

Lemma Push_lookup_fails r ctx source destination l s err w :
  LookupImage source (world s) = (Err err, w) ->
  Push r ctx source destination (Some l) s = ((None, Some (Foreign err)), atWorld s w).
Proof. intros H. unfold Push. run. now rewrite H. Qed.

(** With [AllTags] set: lines 53-74. *)
Lemma Push_allTags r ctx source destination l s image resolvedSource w :
  AllTags (heap s l) = true ->
  LookupImage source (world s) = (Ok (image, resolvedSource), w) ->
  Push r ctx source destination (Some l) s
  = let base := effectiveDestination destination resolvedSource in
    if ContainsAny (TrimPrefix base "docker://") ":" then
      ((None, Some errConflictingTag), atWorld s w)
    else
      match NamedTaggedRepoTags image w with
      | (Err err, w') => ((None, Some (Foreign err)), atWorld s w')
      | (Ok tags, w') => pushTags ctx base l image r tags (atWorld s w')
      end.
Proof.
  intros Ha Hl. unfold Push. run. rewrite Hl. simpl_state. rewrite Ha. cbn zeta.
  destruct (ContainsAny _ ":"); [reflexivity|]. simpl_state.
  destruct (NamedTaggedRepoTags image w) as [[tags|err] w']; reflexivity.
Qed.

(** Without it: line 77. *)
Lemma Push_single r ctx source destination l s image resolvedSource w :
  AllTags (heap s l) = false ->
  LookupImage source (world s) = (Ok (image, resolvedSource), w) ->
  Push r ctx source destination (Some l) s
  = pushImage ctx (effectiveDestination destination resolvedSource) l image r (atWorld s w).
Proof.
  intros Ha Hl. unfold Push. unfold bind at 1 2, mret at 1, ext at 1.
  rewrite Hl. unfold bind at 1, load at 1. cbn [heap]. now rewrite Ha.
Qed.

Lemma Push_nil_options r ctx source destination s :
  Push r ctx source destination None s
  = Push r ctx source destination (Some (next s)) (withFreshOptions s).
Proof. reflexivity. Qed.

(** ** The single push *)

(** C1 (as amended).  Once [pushImage] has its storage reference and the
    destination has resolved, a runtime with an event channel emits the
    event [{ID: image.ID(), Name: destination, Time: the time the defer
    statement ran, Type: EventTypeImagePush}] on every exit that follows
    the all-tags guard of lines 103-105: exactly once, and as the last
    thing before [pushImage] returns, whether [newCopier] fails, [copy]
    fails or the copy succeeds.  The guard itself returns before the
    event is scheduled: its rejection emits nothing. *)
Theorem pushImage_emits_event_past_guard
    ctx destination l image r s srcRef w destRef ch :
  StorageReference image (world s) = (Ok srcRef, w) ->
  resolveDestination destination = Ok destRef ->
  eventChannel r = Some ch ->
  let out := pushImage ctx destination l image r s in
  let ev := {| ID := imageID image; Name := destination; Time := Now w;
               Type_ := EventTypeImagePush |} in
  (TransportName destRef = dockerTransportName \/ AllTags (heap s l) = false ->
   events (trace (snd out)) = (events (trace s) ++ [ev])%list /\
   exists before,
     trace (snd out)
     = (before ++ [WriteEventCalled ev;
                   PushImageReturned destination (snd (fst out))])%list) /\
  (TransportName destRef <> dockerTransportName -> AllTags (heap s l) = true ->
   snd (fst out) = Some (Errorf "--all-tags can only be used with docker transport") /\
   events (trace (snd out)) = events (trace s)).
Proof.
  intros H1 H2 H4 out ev. subst out ev. split.
  - intros H3. run. rewrite H1. simpl_state. rewrite H2. simpl_state.
    rewrite (guard_false _ _ H3), H4.
    repeat (break_match; simpl_state); (split; [read_trace; reflexivity|]);
      rewrite <- app_assoc; eexists; reflexivity.
  - intros Ht Ha.
    rewrite (pushImage_guard_rejects ctx destination l image r s srcRef w destRef
               H1 H2 Ht Ha).
    cbn [fst snd trace]. split; [reflexivity|]. read_trace. reflexivity.
Qed.

(** C4.  With [AllTags] set, a destination that resolves (directly or
    through the [docker://] fallback) to a reference of another transport
    than docker makes [pushImage] fail with the docker-transport-only
    error, before anything is copied or emitted; the transport looked at
    is that of the resolved reference, so a destination that only parses
    with the fallback and lands on the docker transport is let through. *)
Theorem pushImage_allTags_requires_docker
    ctx destination l image r s srcRef w destRef :
  StorageReference image (world s) = (Ok srcRef, w) ->
  ParseImageName destination = Ok destRef \/
    (exists err, ParseImageName destination = Err err /\
                 ParseImageName ("docker://" ++ destination) = Ok destRef) ->
  AllTags (heap s l) = true ->
  let out := pushImage ctx destination l image r s in
  (TransportName destRef <> dockerTransportName ->
   out = ((None, Some (Errorf "--all-tags can only be used with docker transport")),
          {| heap := heap s; next := next s; world := w;
             trace := trace s ++
               [PushImageCalled destination;
                PushImageReturned destination
                  (Some (Errorf "--all-tags can only be used with docker transport"))] |}))
  /\
  (TransportName destRef = dockerTransportName ->
   snd (fst out) <> Some (Errorf "--all-tags can only be used with docker transport")).
Proof.
  intros H1 H2 H3 out.
  assert (Hr : resolveDestination destination = Ok destRef).
  { unfold resolveDestination.
    destruct H2 as [H2|[err [H2 H2']]]; rewrite H2; [reflexivity|].
    now rewrite H2'. }
  subst out. split; intros Ht.
  - apply pushImage_guard_rejects with (srcRef := srcRef) (destRef := destRef);
      assumption.
  - apply pushImage_guard_passes with (srcRef := srcRef) (w := w) (destRef := destRef);
      auto.
Qed.


(** Past the archive step nothing stands between [pushImage] and the
    copy engine: [copy] runs as soon as [newCopier] succeeds. *)
Lemma pushImage_copy_follows_newCopier
    ctx destination l image r s srcRef w destRef c w' :
  StorageReference image (world s) = (Ok srcRef, w) ->
  resolveDestination destination = Ok destRef ->
  TransportName destRef = dockerTransportName \/ AllTags (heap s l) = false ->
  keepsArchiveTags destination destRef ->
  newCopier (copyOptions (heap s l)) w = (Ok c, w') ->
  copies (trace (snd (pushImage ctx destination l image r s)))
  = (copies (trace s) ++ [(srcRef, destRef)])%list.
Proof.
  intros H1 H2 H3 H4 H5. run. rewrite H1. simpl_state. rewrite H2. simpl_state.
  rewrite (guard_false _ _ H3).
  destruct (eventChannel r); simpl_state;
    (destruct H4 as [H4|[[err H4]|[named [H4 H6]]]];
     [ apply String.eqb_neq in H4; rewrite H4
     | rewrite H4; destruct (TransportName destRef =? _)%string
     | rewrite H4, H6; destruct (TransportName destRef =? _)%string ];
     simpl_state; rewrite H5;
     repeat (break_match; simpl_state); read_trace; auto).
Qed.

(** C6 (as amended).  For a docker-archive destination that reaches the
    copy engine (storage reference available, [AllTags] unset): when the
    destination parses as a named reference with a tag, [newCopier]
    receives the options with exactly that tag as archive tags; when it
    has no tag or does not parse, the parse failure is ignored, the
    operation goes on to [newCopier] (and to [copy] once [newCopier]
    succeeds), and [newCopier] receives the archive tags the options
    held on entry, which are empty only if they were empty then. *)
Theorem pushImage_archive_tags_for_copier
    ctx destination l image r s srcRef w destRef :
  StorageReference image (world s) = (Ok srcRef, w) ->
  resolveDestination destination = Ok destRef ->
  TransportName destRef = dockerArchiveTransportName ->
  AllTags (heap s l) = false ->
  let out := pushImage ctx destination l image r s in
  (forall named tagged,
     ParseNamed destination = Ok named ->
     asNamedTagged named = Some tagged ->
     copierOptions (trace (snd out))
     = (copierOptions (trace s) ++
        [{| dockerArchiveAdditionalTags := [tagged];
            copyConfig := copyConfig (copyOptions (heap s l)) |}])%list) /\
  ((exists err, ParseNamed destination = Err err) \/
   (exists named, ParseNamed destination = Ok named /\ asNamedTagged named = None) ->
   copierOptions (trace (snd out))
   = (copierOptions (trace s) ++ [copyOptions (heap s l)])%list /\
   forall c w',
     newCopier (copyOptions (heap s l)) w = (Ok c, w') ->
     copies (trace (snd out)) = (copies (trace s) ++ [(srcRef, destRef)])%list).
Proof.
  intros H1 H2 H3 H4 out. subst out. split.
  - intros named tagged H5 H6.
    eapply pushImage_writes_archive_tag; eassumption.
  - intros H5.
    assert (Hk : keepsArchiveTags destination destRef) by (right; exact H5).
    split.
    + eapply pushImage_keeps_archive_tags; eauto.
    + intros c w' H6.
      eapply pushImage_copy_follows_newCopier; eauto.
Qed.


(** ** Push *)

Lemma effectiveDestination_empty (resolvedSource : string) :
  effectiveDestination "" resolvedSource = resolvedSource.
Proof. reflexivity. Qed.

Lemma effectiveDestination_idem (resolvedSource : string) :
  effectiveDestination resolvedSource resolvedSource = resolvedSource.
Proof. unfold effectiveDestination. now destruct (resolvedSource =? "")%string. Qed.

(** C2 (as amended).  With [AllTags] set, a source that is found, a destination base
    without a tag and tags [t1, ..., tn] for the image, [Push] calls
    [pushImage] on [base:t1], [base:t2], ... in that order, once each.
    Either all n calls succeed and [Push] returns no error, or the calls
    stop at the first tag whose [pushImage] returns an error: that error
    is what [Push] returns, and no later tag is pushed. *)
Theorem Push_allTags_pushes_tags_in_order
    r ctx source destination l s image resolvedSource w tags w' :
  AllTags (heap s l) = true ->
  LookupImage source (world s) = (Ok (image, resolvedSource), w) ->
  ContainsAny (TrimPrefix (effectiveDestination destination resolvedSource) "docker://")
              ":" = false ->
  NamedTaggedRepoTags image w = (Ok tags, w') ->
  let out := Push r ctx source destination (Some l) s in
  let full := fun tag =>
    (effectiveDestination destination resolvedSource ++ ":" ++ Tag tag)%string in
  (fst out = (None, None) /\
   calls (trace (snd out)) = (calls (trace s) ++ map full tags)%list /\
   returns (trace (snd out))
   = (returns (trace s) ++ map (fun tag => (full tag, None)) tags)%list)
  \/
  (exists pre tag post err,
     tags = (pre ++ tag :: post)%list /\
     fst out = (None, Some err) /\
     calls (trace (snd out)) = (calls (trace s) ++ map full (pre ++ [tag]))%list /\
     returns (trace (snd out))
     = (returns (trace s) ++ map (fun t => (full t, None)) pre
        ++ [(full tag, Some err)])%list).
Proof.
  intros Ha Hl Hc Ht out full. subst out.
  rewrite (Push_allTags r ctx source destination l s image resolvedSource w Ha Hl).
  cbn zeta. rewrite Hc, Ht.
  exact (pushTags_outcome ctx _ l image r tags (atWorld s w')).
Qed.

(** C3 (as amended).  With [AllTags] set and a source that is found, a destination
    (the argument, or the resolved source name when the argument is
    empty) that still holds a [':'] once a leading [docker://] is taken
    off makes [Push] return the tag-with-all-tags error; the tags are not
    even looked up, [pushImage] is not called, nothing is copied and no
    event is written: trace and store are as before. *)
Theorem Push_allTags_rejects_tag r ctx source destination l s image resolvedSource w :
  AllTags (heap s l) = true ->
  LookupImage source (world s) = (Ok (image, resolvedSource), w) ->
  ContainsAny (TrimPrefix (effectiveDestination destination resolvedSource) "docker://")
              ":" = true ->
  let out := Push r ctx source destination (Some l) s in
  fst out = (None, Some (Errorf "tag can't be used with --all-tags/-a")) /\
  trace (snd out) = trace s /\
  heap (snd out) = heap s /\
  world (snd out) = w.
Proof.
  intros Ha Hl Hc out. subst out.
  rewrite (Push_allTags r ctx source destination l s image resolvedSource w Ha Hl).
  cbn zeta. rewrite Hc. auto.
Qed.

(** C7.  When the source is found and the destination argument is empty,
    [Push] behaves as if it had been given the resolved source name: a
    single push calls [pushImage] with that name, and an all-tags push
    checks it and loops over it. *)
Theorem Push_empty_destination_is_resolved_source
    r ctx source options s image resolvedSource w :
  LookupImage source (world s) = (Ok (image, resolvedSource), w) ->
  effectiveDestination "" resolvedSource = resolvedSource /\
  Push r ctx source "" options s = Push r ctx source resolvedSource options s /\
  (forall l,
     options = Some l -> AllTags (heap s l) = false ->
     Push r ctx source "" options s
     = pushImage ctx resolvedSource l image r (atWorld s w)) /\
  (options = None ->
   Push r ctx source "" options s
   = pushImage ctx resolvedSource (next s) image r (atWorld (withFreshOptions s) w)) /\
  (forall l tags w',
     options = Some l -> AllTags (heap s l) = true ->
     ContainsAny (TrimPrefix resolvedSource "docker://") ":" = false ->
     NamedTaggedRepoTags image w = (Ok tags, w') ->
     Push r ctx source "" options s
     = pushTags ctx resolvedSource l image r tags (atWorld s w')).
Proof.
  intros Hl. split; [reflexivity|]. split; [|split; [|split]].
  - destruct options as [l|]; unfold Push, alloc; run; rewrite Hl; simpl_state;
      now rewrite effectiveDestination_idem, effectiveDestination_empty.
  - intros l -> Ha.
    now rewrite (Push_single r ctx source "" l s image resolvedSource w Ha Hl).
  - intros ->. rewrite Push_nil_options.
    rewrite (Push_single r ctx source "" (next s) (withFreshOptions s) image
               resolvedSource w); [reflexivity| |exact Hl].
    cbn. now rewrite Nat.eqb_refl.
  - intros l tags w' -> Ha Hc Ht.
    rewrite (Push_allTags r ctx source "" l s image resolvedSource w Ha Hl).
    cbn zeta. rewrite effectiveDestination_empty, Hc, Ht. reflexivity.
Qed.

(** C8 (as amended).  A [Push] with [AllTags] set never returns a payload, so none
    when it succeeds, however many tags were pushed; and when the source
    is found, the destination base holds no tag and the image has no
    tags at all, it returns [(nil, nil)] without a single [pushImage]
    call: trace and store are as before. *)
Theorem Push_allTags_no_payload r ctx source destination l s :
  AllTags (heap s l) = true ->
  let out := Push r ctx source destination (Some l) s in
  fst (fst out) = None /\
  (forall image resolvedSource w w',
     LookupImage source (world s) = (Ok (image, resolvedSource), w) ->
     ContainsAny (TrimPrefix (effectiveDestination destination resolvedSource)
                             "docker://") ":" = false ->
     NamedTaggedRepoTags image w = (Ok [], w') ->
     out = ((None, None), atWorld s w')).
Proof.
  intros Ha out. subst out. split.
  - destruct (LookupImage source (world s)) as [[[image resolvedSource]|err] w] eqn:Hl.
    + rewrite (Push_allTags r ctx source destination l s image resolvedSource w Ha Hl).
      cbn zeta. destruct (ContainsAny _ ":"); [reflexivity|].
      destruct (NamedTaggedRepoTags image w) as [[tags|err] w']; [|reflexivity].
      apply pushTags_payload.
    + now rewrite (Push_lookup_fails r ctx source destination l s err w Hl).
  - intros image resolvedSource w w' Hl Hc Ht.
    rewrite (Push_allTags r ctx source destination l s image resolvedSource w Ha Hl).
    cbn zeta. rewrite Hc, Ht. reflexivity.
Qed.

(** Where the docker-transport-only error of a [Push] with options comes
    from: an all-tags push whose base passed the colon check and one of
    whose tagged destinations resolved outside the docker transport. *)
Lemma Push_rejection_origin r ctx source destination l s msg :
  msg <> "tag can't be used with --all-tags/-a" ->
  snd (fst (Push r ctx source destination (Some l) s)) = Some (Errorf msg) ->
  AllTags (heap s l) = true /\
  exists image resolvedSource w tags w' tag destRef,
    LookupImage source (world s) = (Ok (image, resolvedSource), w) /\
    ContainsAny (TrimPrefix (effectiveDestination destination resolvedSource)
                            "docker://") ":" = false /\
    NamedTaggedRepoTags image w = (Ok tags, w') /\
    In tag tags /\
    resolveDestination
      (effectiveDestination destination resolvedSource ++ ":" ++ Tag tag) = Ok destRef /\
    TransportName destRef <> dockerTransportName.
Proof.
  intros Hmsg.
  destruct (LookupImage source (world s)) as [[[image resolvedSource]|err] w] eqn:Hl.
  2: { rewrite (Push_lookup_fails r ctx source destination l s err w Hl). discriminate. }
  destruct (AllTags (heap s l)) eqn:Ha.
  - rewrite (Push_allTags r ctx source destination l s image resolvedSource w Ha Hl).
    cbn zeta.
    destruct (ContainsAny _ ":") eqn:Hc.
    { cbn. intros H. inversion H. congruence. }
    destruct (NamedTaggedRepoTags image w) as [[tags|err] w'] eqn:Ht; [|discriminate].
    intros H. split; [reflexivity|].
    destruct (pushTags_error_origin ctx _ l image r tags _ _ H) as (tag & s0 & Hin & Hp).
    destruct (pushImage_rejection_origin ctx _ l image r s0 msg Hp)
      as (_ & destRef & Hr & Hn).
    exists image, resolvedSource, w, tags, w', tag, destRef. auto 8.
  - rewrite (Push_single r ctx source destination l s image resolvedSource w Ha Hl).
    intros H.
    destruct (pushImage_rejection_origin ctx _ l image r _ msg H) as (Ha' & _).
    cbn in Ha'. congruence.
Qed.

(** C9 (as amended).  With [AllTags] set and a source that is found, a destination
    [scheme:rest] whose scheme is not [docker] fails in [Push] with the
    tag-with-all-tags error, not with the docker-transport-only one: the
    strip of line 56 leaves it alone and its colon is found.  Given that
    a string behind [docker://] only ever parses to a docker reference,
    [Push] returns the docker-transport-only error only for an all-tags
    push whose destination base holds no colon at all and, with [":"] and
    one of the tags appended, parses as given to a reference of another
    transport. *)
Theorem Push_allTags_transport_errors r ctx source :
  (forall scheme rest l s image resolvedSource w,
     AllTags (heap s l) = true ->
     LookupImage source (world s) = (Ok (image, resolvedSource), w) ->
     ContainsAny scheme ":" = false ->
     scheme <> "docker" ->
     Push r ctx source (scheme ++ ":" ++ rest) (Some l) s
     = ((None, Some (Errorf "tag can't be used with --all-tags/-a")), atWorld s w))
  /\
  ((forall d ref,
      ParseImageName ("docker://" ++ d) = Ok ref ->
      TransportName ref = dockerTransportName) ->
   forall destination options s,
     snd (fst (Push r ctx source destination options s))
     = Some (Errorf "--all-tags can only be used with docker transport") ->
     exists l image resolvedSource w tags w' tag destRef,
       options = Some l /\
       AllTags (heap s l) = true /\
       LookupImage source (world s) = (Ok (image, resolvedSource), w) /\
       ContainsAny (effectiveDestination destination resolvedSource) ":" = false /\
       NamedTaggedRepoTags image w = (Ok tags, w') /\
       In tag tags /\
       ParseImageName
         (effectiveDestination destination resolvedSource ++ ":" ++ Tag tag) = Ok destRef /\
       TransportName destRef <> dockerTransportName).
Proof.
  split.
  - intros scheme rest l s image resolvedSource w Ha Hl Hs Hne.
    rewrite (Push_allTags r ctx source _ l s image resolvedSource w Ha Hl).
    cbn zeta. rewrite effectiveDestination_given by (destruct scheme; discriminate).
    now rewrite scheme_survives_strip.
  - intros Hdocker destination options s H.
    assert (Hmsg : "--all-tags can only be used with docker transport"
                   <> "tag can't be used with --all-tags/-a") by discriminate.
    destruct options as [l|].
    2: { rewrite Push_nil_options in H.
         destruct (Push_rejection_origin r ctx source destination _ _ _ Hmsg H) as [Ha _].
         cbn in Ha. rewrite Nat.eqb_refl in Ha. discriminate. }
    destruct (Push_rejection_origin r ctx source destination l s _ Hmsg H)
      as (Ha & image & resolvedSource & w & tags & w' & tag & destRef
          & Hl & Hc & Ht & Hin & Hr & Hn).
    exists l, image, resolvedSource, w, tags, w', tag, destRef.
    set (base := effectiveDestination destination resolvedSource) in *.
    assert (Hp : ParseImageName (base ++ ":" ++ Tag tag) = Ok destRef).
    { unfold resolveDestination in Hr.
      destruct (ParseImageName (base ++ ":" ++ Tag tag)) as [ref|err]; [exact Hr|].
      destruct (ParseImageName ("docker://" ++ base ++ ":" ++ Tag tag)) as [ref|err']
        eqn:Hf; [|discriminate].
      inversion Hr; subst ref. now apply Hdocker in Hf. }
    assert (Hb : ContainsAny base ":" = false).
    { destruct (HasPrefix base "docker://") eqn:Hpre.
      - exfalso. apply Hn. apply (Hdocker (TrimPrefix base "docker://" ++ ":" ++ Tag tag)%string).
        rewrite <- Hp. f_equal.
        rewrite (HasPrefix_split base "docker://" Hpre) at 2.
        now rewrite append_assoc.
      - now rewrite TrimPrefix_no_prefix in Hc. }
    auto 10.
Qed.

(** * Further properties of Push and pushImage *)

Lemma copiersUsed_app (t1 t2 : list action) :
  copiersUsed (t1 ++ t2)%list = (copiersUsed t1 ++ copiersUsed t2)%list.
Proof. apply flat_map_app. Qed.

Lemma copiersClosed_app (t1 t2 : list action) :
  copiersClosed (t1 ++ t2)%list = (copiersClosed t1 ++ copiersClosed t2)%list.
Proof. apply flat_map_app. Qed.

Ltac read_copiers :=
  rewrite ?copiersUsed_app, ?copiersClosed_app;
  cbn [copiersUsed copiersClosed flat_map app];
  rewrite <- ?app_assoc, ?app_nil_r; cbn [app].

(** ** Case analysis on a call of [Push] with options *)

Lemma Push_cases (P : returned * state -> Prop) r ctx source destination l s :
  (forall err w,
     LookupImage source (world s) = (Err err, w) ->
     P ((None, Some (Foreign err)), atWorld s w)) ->
  (forall image resolvedSource w,
     LookupImage source (world s) = (Ok (image, resolvedSource), w) ->
     AllTags (heap s l) = true ->
     ContainsAny (TrimPrefix (effectiveDestination destination resolvedSource)
                             "docker://") ":" = true ->
     P ((None, Some errConflictingTag), atWorld s w)) ->
  (forall image resolvedSource w err w',
     LookupImage source (world s) = (Ok (image, resolvedSource), w) ->
     AllTags (heap s l) = true ->
     ContainsAny (TrimPrefix (effectiveDestination destination resolvedSource)
                             "docker://") ":" = false ->
     NamedTaggedRepoTags image w = (Err err, w') ->
     P ((None, Some (Foreign err)), atWorld s w')) ->
  (forall image resolvedSource w tags w',
     LookupImage source (world s) = (Ok (image, resolvedSource), w) ->
     AllTags (heap s l) = true ->
     ContainsAny (TrimPrefix (effectiveDestination destination resolvedSource)
                             "docker://") ":" = false ->
     NamedTaggedRepoTags image w = (Ok tags, w') ->
     P (pushTags ctx (effectiveDestination destination resolvedSource) l image r tags
          (atWorld s w'))) ->
  (forall image resolvedSource w,
     LookupImage source (world s) = (Ok (image, resolvedSource), w) ->
     AllTags (heap s l) = false ->
     P (pushImage ctx (effectiveDestination destination resolvedSource) l image r
          (atWorld s w))) ->
  P (Push r ctx source destination (Some l) s).
Proof.
  intros Hfail Htag Hnt Hloop Hsingle.
  destruct (LookupImage source (world s)) as [[[image resolvedSource]|err] w] eqn:Hl.
  2: { rewrite (Push_lookup_fails r ctx source destination l s err w Hl). now apply Hfail. }
  destruct (AllTags (heap s l)) eqn:Ha.
  - rewrite (Push_allTags r ctx source destination l s image resolvedSource w Ha Hl).
    cbn zeta.
    destruct (ContainsAny _ ":") eqn:Hc; [now apply (Htag image resolvedSource w)|].
    destruct (NamedTaggedRepoTags image w) as [[tags|err] w'] eqn:Ht.
    + now apply (Hloop image resolvedSource w tags w').
    + now apply (Hnt image resolvedSource w err w').
  - rewrite (Push_single r ctx source destination l s image resolvedSource w Ha Hl).
    now apply Hsingle.
Qed.

(** ** What the loop keeps: an invariant of the state and a relation
    between the state before and after, both kept by every [pushImage]
    call, are kept by the loop. *)

Lemma pushTags_keeps (I : state -> Prop) (R : state -> state -> Prop)
    ctx destination l image r :
  (forall s, R s s) ->
  (forall a b c, R a b -> R b c -> R a c) ->
  (forall d s, I s ->
     I (snd (pushImage ctx d l image r s)) /\ R s (snd (pushImage ctx d l image r s))) ->
  forall tags s, I s ->
    I (snd (pushTags ctx destination l image r tags s)) /\
    R s (snd (pushTags ctx destination l image r tags s)).
Proof.
  intros Hrefl Htrans Hstep.
  induction tags as [|tag rest IH]; intros s Hs.
  - cbn. auto.
  - rewrite pushTags_cons. cbn zeta.
    destruct (Hstep (destination ++ ":" ++ Tag tag)%string s Hs) as [HI HR].
    destruct (snd (fst (pushImage ctx (destination ++ ":" ++ Tag tag) l image r s))).
    + cbn [snd]. auto.
    + destruct (IH _ HI) as [HI' HR']. split; [exact HI'|]. eapply Htrans; eauto.
Qed.

(** ** One [pushImage] call, further facts on every path *)

Lemma pushImage_events_without_channel ctx destination l image r s :
  eventChannel r = None ->
  events (trace (snd (pushImage ctx destination l image r s))) = events (trace s).
Proof. intros H. run. rewrite H. repeat (break_match; simpl_state); read_trace; reflexivity. Qed.

(** At most one event per call, and it names the image and the
    destination of the call. *)
Lemma pushImage_events ctx destination l image r s :
  let s' := snd (pushImage ctx destination l image r s) in
  events (trace s') = events (trace s) \/
  exists now,
    events (trace s')
    = (events (trace s) ++
       [{| ID := imageID image; Name := destination; Time := now;
           Type_ := EventTypeImagePush |}])%list.
Proof.
  all_paths; read_trace;
    first [ left; reflexivity | right; eexists; reflexivity ].
Qed.

(** The copier [copy] ran on is the copier that is closed. *)
Lemma pushImage_copiers ctx destination l image r s :
  let s' := snd (pushImage ctx destination l image r s) in
  exists cs,
    copiersUsed (trace s') = (copiersUsed (trace s) ++ cs)%list /\
    copiersClosed (trace s') = (copiersClosed (trace s) ++ cs)%list.
Proof.
  all_paths; read_copiers;
    first [ now (exists []; rewrite !app_nil_r) | eexists [_]; split; reflexivity ].
Qed.

(** With [AllTags] set a call leaves the whole store alone, hands
    [newCopier] the options as they are, and copies to docker references
    only. *)
Lemma pushImage_allTags_step ctx destination l image r s :
  AllTags (heap s l) = true ->
  let s' := snd (pushImage ctx destination l image r s) in
  heap s' = heap s /\
  (exists os, copierOptions (trace s') = (copierOptions (trace s) ++ os)%list /\
              Forall (fun o => o = copyOptions (heap s l)) os) /\
  (exists cps, copies (trace s') = (copies (trace s) ++ cps)%list /\
               Forall (fun p => TransportName (snd p) = dockerTransportName) cps).
Proof.
  intros Ha. all_paths; read_trace.
  all: try match goal with
       | Hg : negb (?t =? dockerTransportName)%string && _ = false,
         Hr : (?t =? dockerArchiveTransportName)%string = true |- _ =>
           exfalso; rewrite Ha, andb_true_r in Hg; apply negb_false_iff in Hg;
           apply String.eqb_eq in Hg; rewrite Hg in Hr; discriminate
       end.
  all: split; [reflexivity|].
  all: split;
    [ first [ now (exists []; rewrite app_nil_r; auto)
            | eexists [_]; split; [reflexivity | repeat constructor] ]
    | first [ now (exists []; rewrite app_nil_r; auto)
            | eexists [_]; split; [reflexivity|]; repeat constructor; cbn [snd];
              match goal with
              | Hg : negb (?t =? dockerTransportName)%string && _ = false |- _ =>
                  rewrite Ha, andb_true_r in Hg; apply negb_false_iff in Hg;
                  now apply String.eqb_eq in Hg
              end ] ].
Qed.

(** A payload is what a [copy] call of this very call returned. *)
Lemma pushImage_payload ctx destination l image r s payload :
  fst (fst (pushImage ctx destination l image r s)) = Some payload ->
  exists src dst,
    copies (trace (snd (pushImage ctx destination l image r s)))
    = (copies (trace s) ++ [(src, dst)])%list /\
    resolveDestination destination = Ok dst.
Proof.
  all_paths; intros H; try discriminate; read_trace; eauto.
Qed.

(** ** What a whole [Push] keeps *)

Lemma Push_keeps (I : state -> Prop) (R : state -> state -> Prop)
    r ctx source destination l s :
  (forall s, R s s) ->
  (forall a b c, R a b -> R b c -> R a c) ->
  (forall s w, R s (atWorld s w)) ->
  (forall s w, I s -> I (atWorld s w)) ->
  (forall image d s, I s ->
     I (snd (pushImage ctx d l image r s)) /\ R s (snd (pushImage ctx d l image r s))) ->
  I s ->
  R s (snd (Push r ctx source destination (Some l) s)).
Proof.
  intros Hrefl Htrans Hworld HIworld Hstep HI.
  apply (Push_cases (fun out => R s (snd out))); cbn [snd]; intros; auto.
  - apply Htrans with (b := atWorld s w'); [apply Hworld|].
    apply (proj2 (pushTags_keeps I R ctx _ l image r Hrefl Htrans (Hstep image) tags
                    (atWorld s w') (HIworld _ _ HI))).
  - apply Htrans with (b := atWorld s w); [apply Hworld|].
    apply (proj2 (Hstep image _ _ (HIworld _ _ HI))).
Qed.

Lemma Push_some_no_own_error r ctx source destination l s :
  AllTags (heap s l) = false ->
  forall msg, snd (fst (Push r ctx source destination (Some l) s)) <> Some (Errorf msg).
Proof.
  intros Ha msg.
  apply (Push_cases (fun out => snd (fst out) <> Some (Errorf msg))); cbn [fst snd];
    intros; try congruence.
  intros H'. apply pushImage_rejection_origin in H'. cbn in H'. destruct H'. congruence.
Qed.

Lemma Push_some_store r ctx source destination l s :
  let s' := snd (Push r ctx source destination (Some l) s) in
  next s' = next s /\
  (forall q, q <> l -> heap s' q = heap s q) /\
  AllTags (heap s' l) = AllTags (heap s l) /\
  copyConfig (copyOptions (heap s' l)) = copyConfig (copyOptions (heap s l)).
Proof.
  apply (Push_keeps (fun _ => True)
           (fun a b => next b = next a /\
                       (forall q, q <> l -> heap b q = heap a q) /\
                       AllTags (heap b l) = AllTags (heap a l) /\
                       copyConfig (copyOptions (heap b l))
                       = copyConfig (copyOptions (heap a l)))); auto.
  - intros a b c (H1 & H2 & H3 & H4) (H1' & H2' & H3' & H4').
    repeat split; try congruence. intros q Hq. rewrite H2', H2; auto.
  - intros image d s0 _. split; [exact I|].
    destruct (pushImage_store ctx d l image r s0) as (Hn & Hq & [Hl|[tagged Hl]]);
      rewrite Hl; cbn; auto.
Qed.

Lemma Push_some_calls r ctx source destination l s :
  exists ds,
    calls (trace (snd (Push r ctx source destination (Some l) s)))
    = (calls (trace s) ++ ds)%list /\
    (AllTags (heap s l) = false -> length ds <= 1).
Proof.
  apply (Push_cases (fun out => exists ds,
           calls (trace (snd out)) = (calls (trace s) ++ ds)%list /\
           (AllTags (heap s l) = false -> length ds <= 1))); cbn [snd atWorld trace];
    intros.
  1-3: exists []; rewrite app_nil_r; split; [reflexivity | cbn; auto].
  - destruct (pushTags_outcome ctx (effectiveDestination destination resolvedSource)
                l image r tags (atWorld s w'))
      as [(_ & Hc & _)|(pre & tag & post & err & _ & _ & Hc & _)];
      cbn [atWorld trace] in Hc; rewrite Hc; eexists; split; try reflexivity; congruence.
  - rewrite pushImage_calls. cbn [atWorld trace]. eexists; split; [reflexivity|].
    cbn. auto.
Qed.

(** ** Further theorems *)

(** X1.  A source the local store does not know makes [Push] return the
    store's error as it is, whatever the destination and the options
    say: nothing is pushed, copied or emitted, and no options cell that
    existed before is touched. *)
Theorem Push_unknown_source r ctx source destination options s err w :
  LookupImage source (world s) = (Err err, w) ->
  let out := Push r ctx source destination options s in
  fst out = (None, Some (Foreign err)) /\
  trace (snd out) = trace s /\
  world (snd out) = w /\
  (forall q, q <> next s -> heap (snd out) q = heap s q).
Proof.
  intros H out. subst out.
  destruct options as [l|]; unfold Push, alloc; run; rewrite H; simpl_state;
    repeat split; auto.
  intros q Hq. apply Nat.eqb_neq in Hq. now rewrite Hq.
Qed.

(** X2.  [Push] with nil options works on a cell of its own: it
    allocates exactly one cell, leaves every cell the caller may hold as
    it was, and calls [pushImage] at most once. *)
Theorem Push_nil_options_private_cell r ctx source destination s :
  let s' := snd (Push r ctx source destination None s) in
  next s' = S (next s) /\
  (forall q, q <> next s -> heap s' q = heap s q) /\
  exists ds, calls (trace s') = (calls (trace s) ++ ds)%list /\ length ds <= 1.
Proof.
  cbn zeta. rewrite Push_nil_options.
  destruct (Push_some_store r ctx source destination (next s) (withFreshOptions s))
    as (Hn & Hq & _).
  destruct (Push_some_calls r ctx source destination (next s) (withFreshOptions s))
    as (ds & Hc & Hlen).
  split; [exact Hn|]. split.
  - intros q Hne. rewrite (Hq q Hne). cbn. apply Nat.eqb_neq in Hne. now rewrite Hne.
  - exists ds. split; [exact Hc|]. apply Hlen. cbn. now rewrite Nat.eqb_refl.
Qed.

(** X3.  Without all-tags mode (nil options, or options whose [AllTags]
    is unset) [Push] never fails with one of the two errors push.go
    builds itself: every error it returns is a collaborator's. *)
Theorem Push_plain_errors_are_foreign r ctx source destination options s :
  options = None \/ (exists l, options = Some l /\ AllTags (heap s l) = false) ->
  forall msg, snd (fst (Push r ctx source destination options s)) <> Some (Errorf msg).
Proof.
  intros [->|(l & -> & Ha)] msg.
  - rewrite Push_nil_options. apply Push_some_no_own_error.
    cbn. now rewrite Nat.eqb_refl.
  - now apply Push_some_no_own_error.
Qed.

(** X4.  The path of [pushImage] through the copy engine, for a
    destination that resolved, passed the guard and does not call for an
    archive tag, on a runtime with an event channel: [newCopier] gets the
    options as they are, [copy] runs, the copier is closed, then the
    event is written, in that order; the payload and the error of [copy]
    are returned as they are, also when both are set; the options are
    not touched; and the time in the event is the time before the copier
    was set up. *)
Theorem pushImage_copy_path
    ctx destination l image r s srcRef w destRef ch c w1 res w2 :
  StorageReference image (world s) = (Ok srcRef, w) ->
  resolveDestination destination = Ok destRef ->
  TransportName destRef = dockerTransportName \/ AllTags (heap s l) = false ->
  keepsArchiveTags destination destRef ->
  eventChannel r = Some ch ->
  newCopier (copyOptions (heap s l)) w = (Ok c, w1) ->
  copy c ctx srcRef destRef w1 = (res, w2) ->
  let ev := {| ID := imageID image; Name := destination; Time := Now w;
               Type_ := EventTypeImagePush |} in
  pushImage ctx destination l image r s
  = ((fst res, option_map Foreign (snd res)),
     {| heap := heap s; next := next s;
        world := writeEvent ev (close c w2);
        trace := trace s ++
          [PushImageCalled destination;
           NewCopierCalled (copyOptions (heap s l));
           CopyCalled c ctx srcRef destRef;
           CloseCalled c;
           WriteEventCalled ev;
           PushImageReturned destination (option_map Foreign (snd res))] |}).
Proof.
  intros H1 H2 H3 H4 H5 H6 H7 ev. subst ev.
  run. rewrite H1. simpl_state. rewrite H2. simpl_state.
  rewrite (guard_false _ _ H3), H5. simpl_state.
  destruct H4 as [H4|[[err H4]|[named [H4 H8]]]];
    [ apply String.eqb_neq in H4; rewrite H4
    | rewrite H4; destruct (TransportName destRef =? _)%string
    | rewrite H4, H8; destruct (TransportName destRef =? _)%string ];
    simpl_state; rewrite H6; simpl_state; rewrite H7; simpl_state;
    rewrite <- !app_assoc; reflexivity.
Qed.

(** X5.  When [newCopier] fails on that path, [pushImage] returns its
    error with no payload; [copy] is never called and nothing is closed,
    but the event, already scheduled, is still written. *)
Theorem pushImage_newCopier_fails
    ctx destination l image r s srcRef w destRef ch err w1 :
  StorageReference image (world s) = (Ok srcRef, w) ->
  resolveDestination destination = Ok destRef ->
  TransportName destRef = dockerTransportName \/ AllTags (heap s l) = false ->
  keepsArchiveTags destination destRef ->
  eventChannel r = Some ch ->
  newCopier (copyOptions (heap s l)) w = (Err err, w1) ->
  let ev := {| ID := imageID image; Name := destination; Time := Now w;
               Type_ := EventTypeImagePush |} in
  pushImage ctx destination l image r s
  = ((None, Some (Foreign err)),
     {| heap := heap s; next := next s;
        world := writeEvent ev w1;
        trace := trace s ++
          [PushImageCalled destination;
           NewCopierCalled (copyOptions (heap s l));
           WriteEventCalled ev;
           PushImageReturned destination (Some (Foreign err))] |}).
Proof.
  intros H1 H2 H3 H4 H5 H6 ev. subst ev.
  run. rewrite H1. simpl_state. rewrite H2. simpl_state.
  rewrite (guard_false _ _ H3), H5. simpl_state.
  destruct H4 as [H4|[[e H4]|[named [H4 H8]]]];
    [ apply String.eqb_neq in H4; rewrite H4
    | rewrite H4; destruct (TransportName destRef =? _)%string
    | rewrite H4, H8; destruct (TransportName destRef =? _)%string ];
    simpl_state; rewrite H6; simpl_state;
    rewrite <- !app_assoc; reflexivity.
Qed.

(** X6.  On a runtime without event channel no [Push], in either mode
    and with or without options, ever writes an event. *)
Theorem Push_without_channel_writes_no_event r ctx source destination options s :
  eventChannel r = None ->
  events (trace (snd (Push r ctx source destination options s))) = events (trace s).
Proof.
  intros Hch.
  assert (Hsome : forall l s0,
            events (trace (snd (Push r ctx source destination (Some l) s0)))
            = events (trace s0)).
  { intros l s0.
    apply (Push_keeps (fun _ => True)
             (fun a b => events (trace b) = events (trace a))); auto.
    - intros a b c Hab Hbc. congruence.
    - intros image d s1 _. split; [exact I|].
      now apply pushImage_events_without_channel. }
  destruct options as [l|]; [apply Hsome|].
  rewrite Push_nil_options. now rewrite Hsome.
Qed.

(** X7.  Every event a [Push] writes carries the ID of the image the
    source was resolved to and the type [EventTypeImagePush], and is
    named after a destination [pushImage] was called with during that
    [Push]; there are never more events than [pushImage] calls. *)
Theorem Push_events_name_the_image r ctx source destination l s image resolvedSource w :
  LookupImage source (world s) = (Ok (image, resolvedSource), w) ->
  let s' := snd (Push r ctx source destination (Some l) s) in
  exists ds es,
    calls (trace s') = (calls (trace s) ++ ds)%list /\
    events (trace s') = (events (trace s) ++ es)%list /\
    Forall (fun e => ID e = imageID image /\ Type_ e = EventTypeImagePush /\
                     In (Name e) ds) es /\
    length es <= length ds.
Proof.
  intros Hl. cbn zeta.
  set (R := fun a b : state => exists ds es,
         calls (trace b) = (calls (trace a) ++ ds)%list /\
         events (trace b) = (events (trace a) ++ es)%list /\
         Forall (fun e => ID e = imageID image /\ Type_ e = EventTypeImagePush /\
                          In (Name e) ds) es /\
         length es <= length ds).
  assert (Hrefl : forall a, R a a).
  { intros a. exists [], []. rewrite !app_nil_r. repeat split; auto. }
  assert (Htrans : forall a b c, R a b -> R b c -> R a c).
  { intros a b c (ds1 & es1 & Hc1 & He1 & Hf1 & Hn1) (ds2 & es2 & Hc2 & He2 & Hf2 & Hn2).
    exists (ds1 ++ ds2)%list, (es1 ++ es2)%list.
    rewrite Hc2, Hc1, He2, He1, <- !app_assoc. repeat split.
    - apply Forall_app. split.
      + eapply Forall_impl; [|exact Hf1]. cbn. intros e (? & ? & Hin).
        repeat split; auto. apply in_or_app. now left.
      + eapply Forall_impl; [|exact Hf2]. cbn. intros e (? & ? & Hin).
        repeat split; auto. apply in_or_app. now right.
    - rewrite !length_app. now apply Nat.add_le_mono. }
  assert (Hstep : forall d s0, True ->
            True /\ R s0 (snd (pushImage ctx d l image r s0))).
  { intros d s0 _. split; [exact I|].
    exists [d].
    destruct (pushImage_events ctx d l image r s0) as [He|[now He]].
    - exists []. rewrite pushImage_calls, He, app_nil_r. repeat split; auto. cbn. auto.
    - eexists [_]. rewrite pushImage_calls, He. repeat split; auto.
      repeat constructor. }
  fold (R s (snd (Push r ctx source destination (Some l) s))).
  apply (Push_cases (fun out => R s (snd out))); cbn [snd]; intros;
    try (exists [], []; cbn [atWorld trace]; rewrite !app_nil_r; repeat split; now auto).
  - assert (image0 = image) by congruence. subst image0.
    apply Htrans with (b := atWorld s w'); [exists [], []; cbn; rewrite !app_nil_r; auto|].
    apply (proj2 (pushTags_keeps (fun _ => True) R ctx _ l image r Hrefl Htrans Hstep
                    tags (atWorld s w') I)).
  - assert (image0 = image) by congruence. subst image0.
    apply Htrans with (b := atWorld s w0); [exists [], []; cbn; rewrite !app_nil_r; auto|].
    apply (proj2 (Hstep _ _ I)).
Qed.

(** All-tags mode: what every call of the loop keeps. *)
Lemma Push_allTags_keeps r ctx source destination l s :
  AllTags (heap s l) = true ->
  let s' := snd (Push r ctx source destination (Some l) s) in
  heap s' = heap s /\
  (exists os, copierOptions (trace s') = (copierOptions (trace s) ++ os)%list /\
              Forall (fun o => o = copyOptions (heap s l)) os) /\
  (exists cps, copies (trace s') = (copies (trace s) ++ cps)%list /\
               Forall (fun p => TransportName (snd p) = dockerTransportName) cps).
Proof.
  intros Ha.
  apply (Push_keeps (fun a => AllTags (heap a l) = true)
           (fun a b =>
              heap b = heap a /\
              (exists os, copierOptions (trace b) = (copierOptions (trace a) ++ os)%list /\
                          Forall (fun o => o = copyOptions (heap a l)) os) /\
              (exists cps, copies (trace b) = (copies (trace a) ++ cps)%list /\
                           Forall (fun p => TransportName (snd p) = dockerTransportName)
                                  cps))); auto.
  - intros a. split; [reflexivity|].
    split; exists []; rewrite app_nil_r; auto.
  - intros a b c (Hh & (os & Ho & Hfo) & (cps & Hc & Hfc))
                 (Hh' & (os' & Ho' & Hfo') & (cps' & Hc' & Hfc')).
    split; [congruence|]. split.
    + exists (os ++ os')%list. rewrite Ho', Ho, <- app_assoc. split; [reflexivity|].
      apply Forall_app. split; [exact Hfo|]. now rewrite Hh in Hfo'.
    + exists (cps ++ cps')%list. rewrite Hc', Hc, <- app_assoc. split; [reflexivity|].
      apply Forall_app. auto.
  - intros a w. split; [reflexivity|]. split; exists []; cbn; rewrite app_nil_r; auto.
  - intros image d a Ha'.
    destruct (pushImage_allTags_step ctx d l image r a Ha') as (Hh & Ho & Hc).
    split; [now rewrite Hh|]. auto.
Qed.

(** X8.  An all-tags [Push] never writes to the store: the options it
    was given come back as they went in, archive tags included, and
    every [newCopier] call of the loop receives those same options.  (The
    guard keeps the loop on docker destinations, where lines 113-120 do
    nothing.) *)
Theorem Push_allTags_leaves_options r ctx source destination l s :
  AllTags (heap s l) = true ->
  let s' := snd (Push r ctx source destination (Some l) s) in
  heap s' = heap s /\
  exists os, copierOptions (trace s') = (copierOptions (trace s) ++ os)%list /\
             Forall (fun o => o = copyOptions (heap s l)) os.
Proof.
  intros Ha. destruct (Push_allTags_keeps r ctx source destination l s Ha) as (H1 & H2 & _).
  split; assumption.
Qed.

(** X9.  An all-tags [Push] copies to references of the docker
    transport only. *)
Theorem Push_allTags_copies_to_docker_only r ctx source destination l s :
  AllTags (heap s l) = true ->
  exists cps,
    copies (trace (snd (Push r ctx source destination (Some l) s)))
    = (copies (trace s) ++ cps)%list /\
    Forall (fun p => TransportName (snd p) = dockerTransportName) cps.
Proof.
  intros Ha. now destruct (Push_allTags_keeps r ctx source destination l s Ha) as (_ & _ & H).
Qed.

(** X10.  A [Push] with options allocates nothing and writes to no cell
    but the one it was given; in that cell it changes neither [AllTags]
    nor the copy configuration, in either mode and on every path. *)
Theorem Push_options_frame r ctx source destination l s :
  let s' := snd (Push r ctx source destination (Some l) s) in
  next s' = next s /\
  (forall q, q <> l -> heap s' q = heap s q) /\
  AllTags (heap s' l) = AllTags (heap s l) /\
  copyConfig (copyOptions (heap s' l)) = copyConfig (copyOptions (heap s l)).
Proof.
  apply (Push_keeps (fun _ => True)
           (fun a b => next b = next a /\
                       (forall q, q <> l -> heap b q = heap a q) /\
                       AllTags (heap b l) = AllTags (heap a l) /\
                       copyConfig (copyOptions (heap b l))
                       = copyConfig (copyOptions (heap a l)))); auto.
  - intros a b c (H1 & H2 & H3 & H4) (H1' & H2' & H3' & H4').
    repeat split; try congruence. intros q Hq. rewrite H2', H2; auto.
  - intros image d a _. split; [exact I|].
    destruct (pushImage_store ctx d l image r a) as (Hn & Hq & [Hl|[tagged Hl]]);
      rewrite Hl; cbn; auto.
Qed.

(** X11.  A payload returned by [Push] is the payload of a [copy] call:
    the push was a single push (all-tags unset) and exactly one copy was
    made during it. *)
Theorem Push_payload_comes_from_copy r ctx source destination l s payload :
  fst (fst (Push r ctx source destination (Some l) s)) = Some payload ->
  AllTags (heap s l) = false /\
  exists src dst,
    copies (trace (snd (Push r ctx source destination (Some l) s)))
    = (copies (trace s) ++ [(src, dst)])%list.
Proof.
  apply (Push_cases (fun out =>
           fst (fst out) = Some payload ->
           AllTags (heap s l) = false /\
           exists src dst,
             copies (trace (snd out)) = (copies (trace s) ++ [(src, dst)])%list));
    cbn [fst snd]; intros; try discriminate.
  - rewrite pushTags_payload in *. discriminate.
  - split; [assumption|].
    match goal with Hp : fst (fst (pushImage _ _ _ _ _ _)) = Some _ |- _ =>
      destruct (pushImage_payload _ _ _ _ _ _ _ Hp) as (src & dst & Hc & _) end.
    exists src, dst. exact Hc.
Qed.

(** X12.  Whatever [Push] does, every copier [copy] ran on has been
    closed when [Push] returns, once and in the order of use, and
    nothing else has been closed. *)
Theorem Push_closes_every_copier r ctx source destination options s :
  let s' := snd (Push r ctx source destination options s) in
  exists cs,
    copiersUsed (trace s') = (copiersUsed (trace s) ++ cs)%list /\
    copiersClosed (trace s') = (copiersClosed (trace s) ++ cs)%list.
Proof.
  assert (Hsome : forall l s0, exists cs,
            copiersUsed (trace (snd (Push r ctx source destination (Some l) s0)))
            = (copiersUsed (trace s0) ++ cs)%list /\
            copiersClosed (trace (snd (Push r ctx source destination (Some l) s0)))
            = (copiersClosed (trace s0) ++ cs)%list).
  { intros l s0.
    apply (Push_keeps (fun _ => True)
             (fun a b => exists cs,
                copiersUsed (trace b) = (copiersUsed (trace a) ++ cs)%list /\
                copiersClosed (trace b) = (copiersClosed (trace a) ++ cs)%list)); auto.
    - intros a. exists []. now rewrite !app_nil_r.
    - intros a b c (cs & Hu & Hc) (cs' & Hu' & Hc').
      exists (cs ++ cs')%list. now rewrite Hu', Hu, Hc', Hc, <- !app_assoc.
    - intros a w. exists []. cbn. now rewrite !app_nil_r.
    - intros image d a _. split; [exact I|]. apply pushImage_copiers. }
  cbn zeta. destruct options as [l|]; [apply Hsome|].
  rewrite Push_nil_options. apply (Hsome (next s) (withFreshOptions s)).
Qed.

(** X13.  [pushImage] writes an event only for a destination that
    resolved, on a runtime with an event channel, and past the all-tags
    guard: a call that fails earlier leaves no event behind. *)
Theorem pushImage_event_origin ctx destination l image r s :
  events (trace (snd (pushImage ctx destination l image r s))) <> events (trace s) ->
  eventChannel r <> None /\
  exists destRef,
    resolveDestination destination = Ok destRef /\
    (TransportName destRef = dockerTransportName \/ AllTags (heap s l) = false).
Proof.
  all_paths; read_trace; intros H; try (exfalso; apply H; reflexivity).
  all: split; [discriminate|]; eexists; split; [reflexivity|].
  all: match goal with
       | Hg : negb (?t =? dockerTransportName)%string && ?a = false |- _ =>
           apply andb_false_iff in Hg; destruct Hg as [Hg|Hg];
           [ left; apply negb_false_iff in Hg; now apply String.eqb_eq in Hg
           | right; exact Hg ]
       end.
Qed.

(** X14.  The loop over the tags composes: pushing the tags of one list
    and then, if that went well, the tags of a second list from the state
    reached, is pushing the two lists joined; and once a tag has failed,
    the tags after it make no difference. *)
Theorem pushTags_app ctx destination l image r tags1 tags2 s :
  pushTags ctx destination l image r (tags1 ++ tags2)%list s
  = match snd (fst (pushTags ctx destination l image r tags1 s)) with
    | Some _ => pushTags ctx destination l image r tags1 s
    | None =>
        pushTags ctx destination l image r tags2
          (snd (pushTags ctx destination l image r tags1 s))
    end.
Proof.
  revert s. induction tags1 as [|tag rest IH]; intros s.
  - reflexivity.
  - cbn [app]. rewrite !pushTags_cons. cbn zeta.
    destruct (snd (fst (pushImage ctx (destination ++ ":" ++ Tag tag) l image r s)));
      [reflexivity | apply IH].
Qed.

(** One call that returns no error went all the way through [copy]. *)
Lemma pushImage_no_error_run ctx destination l image r s ch :
  snd (fst (pushImage ctx destination l image r s)) = None ->
  eventChannel r = Some ch ->
  let s' := snd (pushImage ctx destination l image r s) in
  (exists src dst,
     resolveDestination destination = Ok dst /\
     copies (trace s') = (copies (trace s) ++ [(src, dst)])%list) /\
  (exists now,
     events (trace s')
     = (events (trace s) ++
        [{| ID := imageID image; Name := destination; Time := now;
            Type_ := EventTypeImagePush |}])%list).
Proof.
  intros H Hch. revert H. run. rewrite Hch.
  repeat (break_match; simpl_state); intros H; try discriminate; read_trace;
    (split; [do 2 eexists; split; reflexivity | eexists; reflexivity]).
Qed.

(** X15.  A [pushImage] call that returns no error has resolved its
    destination and made exactly one copy, to the resolved reference, on
    any runtime; and, on a runtime with an event channel, it has written
    exactly one event, named after the destination. *)
Theorem pushImage_success ctx destination l image r s :
  snd (fst (pushImage ctx destination l image r s)) = None ->
  let s' := snd (pushImage ctx destination l image r s) in
  (exists src dst,
     resolveDestination destination = Ok dst /\
     copies (trace s') = (copies (trace s) ++ [(src, dst)])%list) /\
  (forall ch,
     eventChannel r = Some ch ->
     exists now,
       events (trace s')
       = (events (trace s) ++
          [{| ID := imageID image; Name := destination; Time := now;
              Type_ := EventTypeImagePush |}])%list).
Proof.
  all_paths; intros H; try discriminate; read_trace;
    (split; [do 2 eexists; split; reflexivity|]);
    intros ch Hch; try discriminate; eexists; reflexivity.
Qed.

(** What a loop that returns no error has done, tag by tag. *)
Lemma pushTags_success ctx destination l image r ch tags :
  eventChannel r = Some ch ->
  forall s,
  snd (fst (pushTags ctx destination l image r tags s)) = None ->
  let s' := snd (pushTags ctx destination l image r tags s) in
  exists es cps,
    events (trace s') = (events (trace s) ++ es)%list /\
    copies (trace s') = (copies (trace s) ++ cps)%list /\
    map Name es = map (fun tag => (destination ++ ":" ++ Tag tag)%string) tags /\
    length cps = length tags.
Proof.
  intros Hch. induction tags as [|tag rest IH]; intros s.
  - intros _. exists [], []. cbn. now rewrite !app_nil_r.
  - rewrite pushTags_cons. cbn zeta.
    destruct (snd (fst (pushImage ctx (destination ++ ":" ++ Tag tag) l image r s)))
      as [err|] eqn:He; cbn [fst snd]; [discriminate|].
    intros H.
    destruct (pushImage_no_error_run ctx _ l image r s ch He Hch)
      as ((src & dst & _ & Hc) & (now & Hev)).
    destruct (IH _ H) as (es & cps & Hes & Hcps & Hn & Hlen).
    eexists (_ :: es), ((src, dst) :: cps).
    rewrite Hes, Hcps, Hev, Hc, <- !app_assoc. cbn [app map length].
    repeat split; try reflexivity.
    + cbn [Name]. now rewrite Hn.
    + now rewrite Hlen.
Qed.

(** X16.  An all-tags [Push] that reaches the loop and returns no error
    has, on a runtime with an event channel, written one event per tag,
    in the order of the tags and named [base:tag], and made as many
    copies as there are tags. *)
Theorem Push_allTags_success
    r ctx source destination l s image resolvedSource w tags w' ch :
  AllTags (heap s l) = true ->
  LookupImage source (world s) = (Ok (image, resolvedSource), w) ->
  ContainsAny (TrimPrefix (effectiveDestination destination resolvedSource) "docker://")
              ":" = false ->
  NamedTaggedRepoTags image w = (Ok tags, w') ->
  eventChannel r = Some ch ->
  snd (fst (Push r ctx source destination (Some l) s)) = None ->
  let s' := snd (Push r ctx source destination (Some l) s) in
  exists es cps,
    events (trace s') = (events (trace s) ++ es)%list /\
    copies (trace s') = (copies (trace s) ++ cps)%list /\
    map Name es
    = map (fun tag =>
             (effectiveDestination destination resolvedSource ++ ":" ++ Tag tag)%string)
          tags /\
    length cps = length tags.
Proof.
  intros Ha Hl Hc Ht Hch.
  rewrite (Push_allTags r ctx source destination l s image resolvedSource w Ha Hl).
  cbn zeta. rewrite Hc, Ht. intros H.
  exact (pushTags_success ctx _ l image r ch tags Hch (atWorld s w') H).
Qed.

End Facts.

(** * The model at work on the small concrete world *)

#[local] Existing Instance Demo.domain.
#[local] Existing Instance Demo.collaborators.

(** C1, the claim as first stated fails: an all-tags push to a [dir:]
    destination resolves, is turned down by the guard of lines 103-105,
    and returns with nothing handed to [writeEvent], although the runtime
    has an event channel. *)
Lemma pushImage_guard_rejection_emits_no_event :
  let s := Demo.start Demo.allTagsOptions in
  let out := pushImage tt "dir:/srv/bb" 0 Demo.busybox Demo.runtime s in
  resolveDestination "dir:/srv/bb" = Ok ("dir", "/srv/bb") /\
  eventChannel Demo.runtime = Some tt /\
  out = ((None, Some (Errorf "--all-tags can only be used with docker transport")),
         {| heap := heap s; next := next s; world := world s;
            trace := [PushImageCalled "dir:/srv/bb";
                      PushImageReturned "dir:/srv/bb"
                        (Some (Errorf "--all-tags can only be used with docker transport"))] |}) /\
  events (trace (snd out)) = [].
Proof. repeat split. Qed.

(** A runtime without event channel emits nothing either. *)
Lemma pushImage_without_channel_emits_no_event :
  let s := Demo.start zeroPushOptions in
  let out := pushImage tt "docker://quay.io/me/bb" 0 Demo.busybox Demo.quiet s in
  snd (fst out) = None /\ events (trace (snd out)) = [].
Proof. split; reflexivity. Qed.

(** The amended C1 on a push that fails in [copy]. *)
Lemma pushImage_emits_event_past_guard_witness :
  let s := Demo.start zeroPushOptions in
  let out := pushImage tt "down/bb" 0 Demo.busybox Demo.runtime s in
  let ev := {| ID := "3fbc63216742"; Name := "down/bb"; Time := 0;
               Type_ := EventTypeImagePush |} in
  StorageReference Demo.busybox (world s) = (Ok ("containers-storage", "3fbc63216742"), 0) /\
  resolveDestination "down/bb" = Ok ("docker", "//down/bb") /\
  snd (fst out) = Some (Foreign "connection refused") /\
  events (trace (snd out)) = (events (trace s) ++ [ev])%list /\
  exists before,
    trace (snd out)
    = (before ++ [WriteEventCalled ev; PushImageReturned "down/bb" (snd (fst out))])%list.
Proof.
  intros s out ev.
  split; [reflexivity|]. split; [reflexivity|]. split; [reflexivity|].
  refine (proj1 (pushImage_emits_event_past_guard
                   (D := Demo.domain) (C := Demo.collaborators)
                   tt "down/bb" 0 Demo.busybox Demo.runtime s
                   ("containers-storage", "3fbc63216742") 0 ("docker", "//down/bb") tt
                   eq_refl eq_refl eq_refl) _).
  left. reflexivity.
Defined.

(** C2 at work: the registry [down] refuses the first tag, the second is
    never tried. *)
Lemma Push_allTags_pushes_tags_in_order_witness :
  let s := Demo.start Demo.allTagsOptions in
  let out := Push Demo.runtime tt "busybox" "docker://down/bb" (Some 0) s in
  let tags := [("localhost/busybox", "v1"); ("localhost/busybox", "v2")] in
  let full := fun tag : string * string => ("docker://down/bb" ++ ":" ++ snd tag)%string in
  (fst out = (None, None) /\
   calls (trace (snd out)) = (calls (trace s) ++ map full tags)%list /\
   returns (trace (snd out))
   = (returns (trace s) ++ map (fun tag => (full tag, None)) tags)%list)
  \/
  (exists pre tag post err,
     tags = (pre ++ tag :: post)%list /\
     fst out = (None, Some err) /\
     calls (trace (snd out)) = (calls (trace s) ++ map full (pre ++ [tag]))%list /\
     returns (trace (snd out))
     = (returns (trace s) ++ map (fun t => (full t, None)) pre
        ++ [(full tag, Some err)])%list).
Proof.
  intros s out tags full.
  apply (Push_allTags_pushes_tags_in_order (D := Demo.domain) (C := Demo.collaborators)
           Demo.runtime tt "busybox" "docker://down/bb" 0 s
           Demo.busybox "localhost/busybox" 0 tags 0).
  - reflexivity.
  - reflexivity.
  - reflexivity.
  - reflexivity.
Defined.

Example Push_allTags_stops_at_first_failure :
  let out := Push Demo.runtime tt "busybox" "docker://down/bb" (Some 0)
                  (Demo.start Demo.allTagsOptions) in
  fst out = (None, Some (Foreign "connection refused")) /\
  calls (trace (snd out)) = ["docker://down/bb:v1"].
Proof. split; reflexivity. Qed.

Example Push_allTags_pushes_both_tags :
  let out := Push Demo.runtime tt "busybox" "quay.io/me/bb" (Some 0)
                  (Demo.start Demo.allTagsOptions) in
  fst out = (None, None) /\
  returns (trace (snd out)) = [("quay.io/me/bb:v1", None); ("quay.io/me/bb:v2", None)].
Proof. split; reflexivity. Qed.

(** C3 at work. *)
Lemma Push_allTags_rejects_tag_witness :
  let s := Demo.start Demo.allTagsOptions in
  let out := Push Demo.runtime tt "busybox" "docker://quay.io/me/bb:latest" (Some 0) s in
  LookupImage "busybox" (world s) = (Ok (Demo.busybox, "localhost/busybox"), 0) /\
  ContainsAny (TrimPrefix "docker://quay.io/me/bb:latest" "docker://") ":" = true /\
  fst out = (None, Some (Errorf "tag can't be used with --all-tags/-a")) /\
  trace (snd out) = trace s /\
  heap (snd out) = heap s /\
  world (snd out) = 0.
Proof.
  intros s out. split; [reflexivity|]. split; [reflexivity|].
  apply (Push_allTags_rejects_tag (D := Demo.domain) (C := Demo.collaborators)
           Demo.runtime tt "busybox" "docker://quay.io/me/bb:latest" 0 s
           Demo.busybox "localhost/busybox" 0).
  - reflexivity.
  - reflexivity.
  - reflexivity.
Defined.

(** C4 at work: [dir:] is turned down; a bare repository name, which only
    parses behind [docker://], is not. *)
Lemma pushImage_allTags_requires_docker_witness :
  let s := Demo.start Demo.allTagsOptions in
  (pushImage tt "dir:/srv/bb" 0 Demo.busybox Demo.runtime s
   = ((None, Some (Errorf "--all-tags can only be used with docker transport")),
      {| heap := heap s; next := next s; world := 0;
         trace := trace s ++
           [PushImageCalled "dir:/srv/bb";
            PushImageReturned "dir:/srv/bb"
              (Some (Errorf "--all-tags can only be used with docker transport"))] |}))
  /\
  (ParseImageName "quay.io/me/bb"
   = Err "expected colon-separated transport:reference" /\
   snd (fst (pushImage tt "quay.io/me/bb" 0 Demo.busybox Demo.runtime s))
   <> Some (Errorf "--all-tags can only be used with docker transport")).
Proof.
  intros s. split; [|split; [reflexivity|]].
  - apply (pushImage_allTags_requires_docker (D := Demo.domain) (C := Demo.collaborators)
             tt "dir:/srv/bb" 0 Demo.busybox Demo.runtime s
             ("containers-storage", "3fbc63216742") 0 ("dir", "/srv/bb")).
    + reflexivity.
    + left. reflexivity.
    + reflexivity.
    + discriminate.
  - apply (pushImage_allTags_requires_docker (D := Demo.domain) (C := Demo.collaborators)
             tt "quay.io/me/bb" 0 Demo.busybox Demo.runtime s
             ("containers-storage", "3fbc63216742") 0 ("docker", "//quay.io/me/bb")).
    + reflexivity.
    + right. exists "expected colon-separated transport:reference".
      split; reflexivity.
    + reflexivity.
    + reflexivity.
Defined.


(** C6, the claim as first stated fails: the options cell [0] is used for
    a push to a tagged docker-archive destination and then for one to a
    docker-archive destination that does not parse as a named reference;
    the second [newCopier] call still receives the first push's tag, not
    an empty list. *)
Lemma untagged_archive_push_receives_earlier_tag :
  let s0 := Demo.start zeroPushOptions in
  let s1 := snd (Push Demo.runtime tt "busybox" "docker-archive:bb" (Some 0) s0) in
  let out := Push Demo.runtime tt "busybox" "docker-archive:/srv/bb.tar" (Some 0) s1 in
  resolveDestination "docker-archive:/srv/bb.tar" = Ok ("docker-archive", "/srv/bb.tar") /\
  ParseNamed "docker-archive:/srv/bb.tar" = Err "invalid reference format" /\
  snd (fst out) = None /\
  map (@dockerArchiveAdditionalTags Demo.domain) (copierOptions (trace (snd out)))
  = [[("docker-archive", "bb")]; [("docker-archive", "bb")]].
Proof. repeat split. Qed.

(** The amended C6 on both kinds of docker-archive destination. *)
Lemma pushImage_archive_tags_for_copier_witness :
  let s := Demo.start zeroPushOptions in
  copierOptions (trace (snd (pushImage tt "docker-archive:bb" 0 Demo.busybox Demo.runtime s)))
  = [{| dockerArchiveAdditionalTags := [("docker-archive", "bb")]; copyConfig := tt |}]
  /\
  (copierOptions
     (trace (snd (pushImage tt "docker-archive:/srv/bb.tar" 0 Demo.busybox Demo.runtime s)))
   = [{| dockerArchiveAdditionalTags := []; copyConfig := tt |}] /\
   copies
     (trace (snd (pushImage tt "docker-archive:/srv/bb.tar" 0 Demo.busybox Demo.runtime s)))
   = [(("containers-storage", "3fbc63216742"), ("docker-archive", "/srv/bb.tar"))]).
Proof.
  intros s. split.
  - destruct (pushImage_archive_tags_for_copier
                (D := Demo.domain) (C := Demo.collaborators)
                tt "docker-archive:bb" 0 Demo.busybox Demo.runtime s
                ("containers-storage", "3fbc63216742") 0 ("docker-archive", "bb")
                eq_refl eq_refl eq_refl eq_refl) as [Htagged _].
    apply (Htagged ("docker-archive", Some "bb") ("docker-archive", "bb")); reflexivity.
  - destruct (pushImage_archive_tags_for_copier
                (D := Demo.domain) (C := Demo.collaborators)
                tt "docker-archive:/srv/bb.tar" 0 Demo.busybox Demo.runtime s
                ("containers-storage", "3fbc63216742") 0 ("docker-archive", "/srv/bb.tar")
                eq_refl eq_refl eq_refl eq_refl) as [_ Hplain].
    destruct Hplain as [Hopts Hcopy].
    + left. exists "invalid reference format". reflexivity.
    + split; [exact Hopts|]. apply (Hcopy tt 0). reflexivity.
Defined.

(** C7 at work. *)
Lemma Push_empty_destination_is_resolved_source_witness :
  let s := Demo.start zeroPushOptions in
  LookupImage "busybox" (world s) = (Ok (Demo.busybox, "localhost/busybox"), 0) /\
  Push Demo.runtime tt "busybox" "" (Some 0) s
  = Push Demo.runtime tt "busybox" "localhost/busybox" (Some 0) s /\
  Push Demo.runtime tt "busybox" "" (Some 0) s
  = pushImage tt "localhost/busybox" 0 Demo.busybox Demo.runtime (atWorld s 0).
Proof.
  intros s. split; [reflexivity|].
  destruct (Push_empty_destination_is_resolved_source
              (D := Demo.domain) (C := Demo.collaborators)
              Demo.runtime tt "busybox" (Some 0) s Demo.busybox "localhost/busybox" 0
              eq_refl) as (_ & Hsame & Hsingle & _).
  split; [exact Hsame|]. apply Hsingle; reflexivity.
Defined.

Example Push_empty_destination_pushes_to_resolved_source :
  calls (trace (snd (Push Demo.runtime tt "busybox" "" None
                          (Demo.start zeroPushOptions))))
  = ["localhost/busybox"].
Proof. reflexivity. Qed.

(** C8 at work: an image without tags. *)
Lemma Push_allTags_no_payload_witness :
  let s := Demo.start Demo.allTagsOptions in
  let out := Push Demo.runtime tt "scratch" "quay.io/me/scratch" (Some 0) s in
  NamedTaggedRepoTags Demo.scratch 0 = (Ok [], 0) /\
  fst (fst out) = None /\
  out = ((None, None), atWorld s 0).
Proof.
  intros s out. split; [reflexivity|].
  destruct (Push_allTags_no_payload (D := Demo.domain) (C := Demo.collaborators)
              Demo.runtime tt "scratch" "quay.io/me/scratch" 0 s eq_refl)
    as [Hpayload Hnone].
  split; [exact Hpayload|].
  apply (Hnone Demo.scratch "localhost/scratch" 0 0); reflexivity.
Defined.

(** In the small world a string behind [docker://] parses to a docker
    reference or not at all. *)
Lemma demo_docker_prefix (d : string) (ref : string * string) :
  Demo.parseImageName ("docker://" ++ d) = Ok ref -> fst ref = "docker".
Proof.
  unfold Demo.parseImageName. cbn [append Demo.splitColon].
  cbn -[HasPrefix ContainsAny String.eqb].
  cbn [String.eqb Ascii.eqb Bool.eqb].
  destruct (negb _); [discriminate|].
  destruct (ContainsAny _ _); [discriminate|].
  now intros [= <-].
Qed.

(** C9 at work: [oci-archive:] meets the tag check; the bare base [dir]
    passes it and, with [":v1"] appended, parses to a [dir] reference. *)
Lemma Push_allTags_transport_errors_witness :
  let s := Demo.start Demo.allTagsOptions in
  Push Demo.runtime tt "busybox" "oci-archive:/srv/bb.tar" (Some 0) s
  = ((None, Some (Errorf "tag can't be used with --all-tags/-a")), atWorld s 0)
  /\
  (snd (fst (Push Demo.runtime tt "busybox" "dir" (Some 0) s))
   = Some (Errorf "--all-tags can only be used with docker transport") /\
   exists l image resolvedSource w tags w' tag destRef,
     Some 0 = Some l /\
     AllTags (heap s l) = true /\
     LookupImage "busybox" (world s) = (Ok (image, resolvedSource), w) /\
     ContainsAny (effectiveDestination "dir" resolvedSource) ":" = false /\
     NamedTaggedRepoTags image w = (Ok tags, w') /\
     In tag tags /\
     ParseImageName (effectiveDestination "dir" resolvedSource ++ ":" ++ Tag tag)
     = Ok destRef /\
     TransportName destRef <> dockerTransportName).
Proof.
  intros s.
  destruct (Push_allTags_transport_errors (D := Demo.domain) (C := Demo.collaborators)
              Demo.runtime tt "busybox") as [Hscheme Honly].
  split.
  - apply (Hscheme "oci-archive" "/srv/bb.tar" 0 s Demo.busybox "localhost/busybox" 0).
    + reflexivity.
    + reflexivity.
    + reflexivity.
    + discriminate.
  - split; [reflexivity|].
    apply (Honly demo_docker_prefix "dir" (Some 0) s). reflexivity.
Defined.


(** * The further theorems at work *)

(** X1 at work: an unknown source wins over a destination that all-tags
    mode would turn down. *)
Lemma Push_unknown_source_witness :
  let s := Demo.start Demo.allTagsOptions in
  let out := Push Demo.runtime tt "nginx" "quay.io/me/nginx:latest" (Some 0) s in
  LookupImage "nginx" (world s) = (Err "image not known", 0) /\
  fst out = (None, Some (Foreign "image not known")) /\
  trace (snd out) = trace s /\
  world (snd out) = 0 /\
  (forall q, q <> next s -> heap (snd out) q = heap s q).
Proof.
  intros s out. split; [reflexivity|].
  apply (Push_unknown_source (D := Demo.domain) (C := Demo.collaborators)
           Demo.runtime tt "nginx" "quay.io/me/nginx:latest" (Some 0) s
           "image not known" 0).
  reflexivity.
Defined.

(** X3 at work: a plain push to a [dir:] destination is not turned down. *)
Lemma Push_plain_errors_are_foreign_witness :
  let s := Demo.start zeroPushOptions in
  AllTags (heap s 0) = false /\
  snd (fst (Push Demo.runtime tt "busybox" "dir:/srv/bb" (Some 0) s))
  <> Some (Errorf "--all-tags can only be used with docker transport").
Proof.
  intros s. split; [reflexivity|].
  apply (Push_plain_errors_are_foreign (D := Demo.domain) (C := Demo.collaborators)
           Demo.runtime tt "busybox" "dir:/srv/bb" (Some 0) s).
  right. exists 0. split; reflexivity.
Defined.

(** X4 at work. *)
Lemma pushImage_copy_path_witness :
  let s := Demo.start zeroPushOptions in
  let ev := {| ID := "3fbc63216742"; Name := "quay.io/me/bb"; Time := 0;
               Type_ := EventTypeImagePush |} in
  resolveDestination "quay.io/me/bb" = Ok ("docker", "//quay.io/me/bb") /\
  pushImage tt "quay.io/me/bb" 0 Demo.busybox Demo.runtime s
  = ((Some [Byte.x7b; Byte.x7d], None),
     {| heap := heap s; next := next s; world := 1;
        trace := trace s ++
          [PushImageCalled "quay.io/me/bb";
           NewCopierCalled (copyOptions (heap s 0));
           CopyCalled tt tt ("containers-storage", "3fbc63216742")
                      ("docker", "//quay.io/me/bb");
           CloseCalled tt;
           WriteEventCalled ev;
           PushImageReturned "quay.io/me/bb" None] |}).
Proof.
  intros s ev. split; [reflexivity|].
  apply (pushImage_copy_path (D := Demo.domain) (C := Demo.collaborators)
           tt "quay.io/me/bb" 0 Demo.busybox Demo.runtime s
           ("containers-storage", "3fbc63216742") 0 ("docker", "//quay.io/me/bb")
           tt tt 0 (Some [Byte.x7b; Byte.x7d], None) 1).
  - reflexivity.
  - reflexivity.
  - left. reflexivity.
  - left. discriminate.
  - reflexivity.
  - reflexivity.
  - reflexivity.
Defined.

(** X5 at work, in the world whose copy engine cannot be set up. *)
Lemma pushImage_newCopier_fails_witness :
  let s := Demo.start zeroPushOptions in
  let ev := {| ID := "3fbc63216742"; Name := "quay.io/me/bb"; Time := 0;
               Type_ := EventTypeImagePush |} in
  @pushImage Demo.domain Demo.withoutCopier tt "quay.io/me/bb" 0 Demo.busybox
             Demo.runtime s
  = ((None, Some (Foreign "no signature policy")),
     {| heap := heap s; next := next s; world := 0;
        trace := trace s ++
          [PushImageCalled "quay.io/me/bb";
           NewCopierCalled (copyOptions (heap s 0));
           WriteEventCalled ev;
           PushImageReturned "quay.io/me/bb" (Some (Foreign "no signature policy"))] |}).
Proof.
  intros s ev.
  apply (pushImage_newCopier_fails (D := Demo.domain) (C := Demo.withoutCopier)
           tt "quay.io/me/bb" 0 Demo.busybox Demo.runtime s
           ("containers-storage", "3fbc63216742") 0 ("docker", "//quay.io/me/bb")
           tt "no signature policy" 0).
  - reflexivity.
  - reflexivity.
  - left. reflexivity.
  - left. discriminate.
  - reflexivity.
  - reflexivity.
Defined.

(** X6 at work: two tags pushed, no event. *)
Lemma Push_without_channel_writes_no_event_witness :
  let s := Demo.start Demo.allTagsOptions in
  let out := Push Demo.quiet tt "busybox" "quay.io/me/bb" (Some 0) s in
  calls (trace (snd out)) = ["quay.io/me/bb:v1"; "quay.io/me/bb:v2"] /\
  events (trace (snd out)) = events (trace s).
Proof.
  intros s out. split; [reflexivity|].
  apply (Push_without_channel_writes_no_event (D := Demo.domain) (C := Demo.collaborators)
           Demo.quiet tt "busybox" "quay.io/me/bb" (Some 0) s).
  reflexivity.
Defined.

(** X7 at work. *)
Lemma Push_events_name_the_image_witness :
  let s := Demo.start Demo.allTagsOptions in
  let s' := snd (Push Demo.runtime tt "busybox" "quay.io/me/bb" (Some 0) s) in
  exists ds es,
    calls (trace s') = (calls (trace s) ++ ds)%list /\
    events (trace s') = (events (trace s) ++ es)%list /\
    Forall (fun e => ID e = "3fbc63216742" /\ Type_ e = EventTypeImagePush /\
                     In (Name e) ds) es /\
    length es <= length ds.
Proof.
  intros s s'.
  apply (Push_events_name_the_image (D := Demo.domain) (C := Demo.collaborators)
           Demo.runtime tt "busybox" "quay.io/me/bb" 0 s
           Demo.busybox "localhost/busybox" 0).
  reflexivity.
Defined.

(** X8 at work. *)
Lemma Push_allTags_leaves_options_witness :
  let s := Demo.start Demo.allTagsOptions in
  let s' := snd (Push Demo.runtime tt "busybox" "quay.io/me/bb" (Some 0) s) in
  heap s' = heap s /\
  exists os, copierOptions (trace s') = (copierOptions (trace s) ++ os)%list /\
             Forall (fun o => o = copyOptions (heap s 0)) os.
Proof.
  intros s s'.
  apply (Push_allTags_leaves_options (D := Demo.domain) (C := Demo.collaborators)
           Demo.runtime tt "busybox" "quay.io/me/bb" 0 s).
  reflexivity.
Defined.

(** X9 at work. *)
Lemma Push_allTags_copies_to_docker_only_witness :
  let s := Demo.start Demo.allTagsOptions in
  exists cps,
    copies (trace (snd (Push Demo.runtime tt "busybox" "quay.io/me/bb" (Some 0) s)))
    = (copies (trace s) ++ cps)%list /\
    Forall (fun p : (string * string) * (string * string) => fst (snd p) = "docker") cps.
Proof.
  intros s.
  apply (Push_allTags_copies_to_docker_only (D := Demo.domain) (C := Demo.collaborators)
           Demo.runtime tt "busybox" "quay.io/me/bb" 0 s).
  reflexivity.
Defined.

(** X11 at work. *)
Lemma Push_payload_comes_from_copy_witness :
  let s := Demo.start zeroPushOptions in
  let out := Push Demo.runtime tt "busybox" "" (Some 0) s in
  fst (fst out) = Some [Byte.x7b; Byte.x7d] /\
  AllTags (heap s 0) = false /\
  exists src dst, copies (trace (snd out)) = (copies (trace s) ++ [(src, dst)])%list.
Proof.
  intros s out. split; [reflexivity|].
  apply (Push_payload_comes_from_copy (D := Demo.domain) (C := Demo.collaborators)
           Demo.runtime tt "busybox" "" 0 s [Byte.x7b; Byte.x7d]).
  reflexivity.
Defined.

(** X13 at work. *)
Lemma pushImage_event_origin_witness :
  let s := Demo.start zeroPushOptions in
  eventChannel Demo.runtime <> None /\
  exists destRef,
    resolveDestination "quay.io/me/bb" = Ok destRef /\
    (TransportName destRef = dockerTransportName \/ AllTags (heap s 0) = false).
Proof.
  intros s.
  apply (pushImage_event_origin (D := Demo.domain) (C := Demo.collaborators)
           tt "quay.io/me/bb" 0 Demo.busybox Demo.runtime s).
  intros H. vm_compute in H. discriminate H.
Defined.

(** X15 at work, on the runtime without channel for the copy and on the
    one with a channel for the event. *)
Lemma pushImage_success_witness :
  let s := Demo.start zeroPushOptions in
  (exists src dst,
     resolveDestination "quay.io/me/bb" = Ok dst /\
     copies (trace (snd (pushImage tt "quay.io/me/bb" 0 Demo.busybox Demo.quiet s)))
     = (copies (trace s) ++ [(src, dst)])%list) /\
  (exists now,
     events (trace (snd (pushImage tt "quay.io/me/bb" 0 Demo.busybox Demo.runtime s)))
     = (events (trace s) ++
        [{| ID := "3fbc63216742"; Name := "quay.io/me/bb"; Time := now;
            Type_ := EventTypeImagePush |}])%list).
Proof.
  intros s. split.
  - apply (pushImage_success (D := Demo.domain) (C := Demo.collaborators)
             tt "quay.io/me/bb" 0 Demo.busybox Demo.quiet s).
    reflexivity.
  - apply (proj2 (pushImage_success (D := Demo.domain) (C := Demo.collaborators)
                    tt "quay.io/me/bb" 0 Demo.busybox Demo.runtime s eq_refl) tt).
    reflexivity.
Defined.

(** X16 at work: two tags, two events, two copies. *)
Lemma Push_allTags_success_witness :
  let s := Demo.start Demo.allTagsOptions in
  let s' := snd (Push Demo.runtime tt "busybox" "quay.io/me/bb" (Some 0) s) in
  exists es cps,
    events (trace s') = (events (trace s) ++ es)%list /\
    copies (trace s') = (copies (trace s) ++ cps)%list /\
    map (@Name Demo.domain) es
    = map (fun tag : string * string => ("quay.io/me/bb" ++ ":" ++ snd tag)%string)
          [("localhost/busybox", "v1"); ("localhost/busybox", "v2")] /\
    length cps = 2.
Proof.
  intros s s'.
  apply (Push_allTags_success (D := Demo.domain) (C := Demo.collaborators)
           Demo.runtime tt "busybox" "quay.io/me/bb" 0 s
           Demo.busybox "localhost/busybox" 0
           [("localhost/busybox", "v1"); ("localhost/busybox", "v2")] 0 tt).
  - reflexivity.
  - reflexivity.
  - reflexivity.
  - reflexivity.
  - reflexivity.
  - reflexivity.
Defined.

(** * Where the unconditional readings of C2, C3, C8 and C9 fail *)

(** C2, the claim as first stated fails: the image has the tags [v1] and
    [v2] and [AllTags] is set, but the destination names a registry with
    a port; the colon check of lines 56-59 returns before the tags are
    looked up, and [pushImage] is not called once. *)
Lemma Push_allTags_port_destination_pushes_no_tag :
  let s := Demo.start Demo.allTagsOptions in
  let out := Push Demo.runtime tt "busybox" "localhost:5000/bb" (Some 0) s in
  AllTags (heap s 0) = true /\
  LookupImage "busybox" (world s) = (Ok (Demo.busybox, "localhost/busybox"), 0) /\
  NamedTaggedRepoTags Demo.busybox 0
  = (Ok [("localhost/busybox", "v1"); ("localhost/busybox", "v2")], 0) /\
  fst out = (None, Some (Errorf "tag can't be used with --all-tags/-a")) /\
  calls (trace (snd out)) = [].
Proof. repeat split. Qed.

(** C3, the claim as first stated fails: [AllTags] is set and the
    destination holds a colon, but the source is not in the local store;
    lines 38-41 return the store's error before the destination is looked
    at. *)
Lemma Push_allTags_tagged_destination_unknown_source :
  let s := Demo.start Demo.allTagsOptions in
  let out := Push Demo.runtime tt "nginx" "quay.io/me/nginx:1.27" (Some 0) s in
  AllTags (heap s 0) = true /\
  ContainsAny (TrimPrefix "quay.io/me/nginx:1.27" "docker://") ":" = true /\
  fst out = (None, Some (Foreign "image not known")) /\
  fst out <> (None, Some (Errorf "tag can't be used with --all-tags/-a")).
Proof. repeat split. discriminate. Qed.

(** C8, the claim as first stated fails: the image has no tags and
    [AllTags] is set, but the destination names a registry with a port;
    [Push] fails on the colon check instead of returning success. *)
Lemma Push_allTags_no_tags_port_destination_fails :
  let s := Demo.start Demo.allTagsOptions in
  let out := Push Demo.runtime tt "scratch" "localhost:5000/scratch" (Some 0) s in
  AllTags (heap s 0) = true /\
  LookupImage "scratch" (world s) = (Ok (Demo.scratch, "localhost/scratch"), 0) /\
  NamedTaggedRepoTags Demo.scratch 0 = (Ok [], 0) /\
  fst out = (None, Some (Errorf "tag can't be used with --all-tags/-a")) /\
  snd (fst out) <> None.
Proof. repeat split. discriminate. Qed.

(** C9, the claim as first stated fails: [AllTags] is set and the
    destination starts with the scheme [oci-archive], but the source is
    not in the local store; the error returned is the store's, not the
    one about the tag. *)
Lemma Push_allTags_scheme_destination_unknown_source :
  let s := Demo.start Demo.allTagsOptions in
  let out := Push Demo.runtime tt "nginx" "oci-archive:/srv/x.tar" (Some 0) s in
  AllTags (heap s 0) = true /\
  ContainsAny "oci-archive" ":" = false /\
  fst out = (None, Some (Foreign "image not known")) /\
  fst out <> (None, Some (Errorf "tag can't be used with --all-tags/-a")).
Proof. repeat split. discriminate. Qed.
